(** * blueis: the key-value store and the consistent-hashing ring

    A shallow embedding of the two Go packages of the repository:

    - [kvstore]: the store goroutine ([KeyValueStore], one command at a
      time) and the facade that talks to it over a channel
      ([KeyValueService]);
    - [node]: the hash ring ([NodeService]) with its virtual nodes.

    Go's [int] is a 64-bit two's-complement integer and [uint32] a 32-bit
    unsigned one; both are modelled by [Z] with the wrap-around written
    out.  Go maps are [gmap]s, slices are lists, a [*string] is an
    [option string] ([None] for [nil]) and an [error] is an
    [option string] carrying the message ([None] for [nil]). *)

From stdpp Require Import base numbers list list_numbers sorting strings pretty gmap.

Local Open Scope Z_scope.

(** ** Machine integers *)

Definition int_min : Z := - 2 ^ 63.
Definition int_max : Z := 2 ^ 63 - 1.

(** Conversion of a mathematical integer to Go's [int] (signed, 64 bits). *)
Definition to_int (z : Z) : Z := (z + 2 ^ 63) `mod` 2 ^ 64 - 2 ^ 63.

(** Conversion to Go's [uint] (unsigned, 64 bits). *)
Definition to_uint (z : Z) : Z := z `mod` 2 ^ 64.

(** Conversion to [uint32]. *)
Definition to_uint32 (z : Z) : Z := z `mod` 2 ^ 32.

(** [[]byte(s)]: the bytes of a string. *)
Definition bytes (s : string) : list Z :=
  (λ c, Z.of_N (Ascii.N_of_ascii c)) <$> String.list_ascii_of_string s.

(** [fmt.Sprintf("%d", z)]. *)
Definition itoa (z : Z) : string := pretty z.

(** * Package kvstore *)

Module kvstore.

(** The command kinds, [const ( DELETE = iota; UPDATE; PUT; GET )]. *)
Definition DELETE : Z := 0.
Definition UPDATE : Z := 1.
Definition PUT : Z := 2.
Definition GET : Z := 3.

(** [KeyValueOutput]: what the store replies on a command's private
    [output] channel. *)
Record KeyValueOutput := MkOutput {
  success : bool;
  value : option string;
  err : option string
}.

(** [KeyValueCommand].  The [output] channel of the Go struct carries
    exactly one reply to the caller that made it; here the reply is the
    result of processing the command. *)
Record KeyValueCommand := MkCommand {
  commandType : Z;
  key : string;
  cvalue : option string
}.

(** The two statements by which the store goroutine mutates its map. *)
Inductive Mutation :=
| Assign (k v : string)        (* kvStore.store[k] = v *)
| Remove (k : string).         (* delete(kvStore.store, k) *)

Definition mutate (m : gmap string string) (w : Mutation) : gmap string string :=
  match w with
  | Assign k v => <[k := v]> m
  | Remove k => delete k m
  end.

Definition GetCommandTypeString (commandType : Z) : string :=
  if decide (commandType = PUT) then "PUT"
  else if decide (commandType = DELETE) then "DELETE"
  else if decide (commandType = GET) then "GET"
  else "UNKNOWN".

(** The [Process...] methods read the map [store] and return the
    mutating statements they execute, in order, together with the reply
    they send. *)
Definition ProcessPutCommand (store : gmap string string) (command : KeyValueCommand)
  : list Mutation * KeyValueOutput :=
  let key := key command in
  let val := cvalue command in
  match val with
  | None =>
      ([], MkOutput false None (Some "value given was nil for put command"))
  | Some v =>
      ([Assign key v], MkOutput true val None)
  end.

Definition ProcessGetCommand (store : gmap string string) (command : KeyValueCommand)
  : list Mutation * KeyValueOutput :=
  let key := key command in
  match store !! key with
  | Some value => ([], MkOutput true (Some value) None)
  | None =>
      ([], MkOutput false None
             (Some ("key " +:+ key +:+ " does not exist in the store")))
  end.

Definition ProcessDeleteCommand (store : gmap string string) (command : KeyValueCommand)
  : list Mutation * KeyValueOutput :=
  let key := key command in
  match store !! key with
  | Some value => ([Remove key], MkOutput true (Some value) None)
  | None => ([], MkOutput true None None)
  end.

Definition ProcessCommand (store : gmap string string) (command : KeyValueCommand)
  : list Mutation * KeyValueOutput :=
  if decide (commandType command = PUT) then ProcessPutCommand store command
  else if decide (commandType command = GET) then ProcessGetCommand store command
  else if decide (commandType command = DELETE) then ProcessDeleteCommand store command
  else ([], MkOutput false None
              (Some ("command type " +:+ GetCommandTypeString (commandType command)
                     +:+ " not found"))).

(** One turn of the loop of [Start]: the map after the command's
    mutations, and the reply. *)
Definition handle (store : gmap string string) (command : KeyValueCommand)
  : gmap string string * KeyValueOutput :=
  let '(ws, out) := ProcessCommand store command in
  (foldl mutate store ws, out).

(** The service together with the goroutine it started.

    - [input] is the history of the channel of that name: the commands
      sent on it, oldest first;
    - [isActive] is the flag of the Go struct;
    - [ctxDone] tells whether the context was cancelled (what [close()]
      does), upon which [Start] returns;
    - [store] is the map owned by the store goroutine. *)
Record KeyValueService := MkService {
  input : list KeyValueCommand;
  isActive : bool;
  ctxDone : bool;
  store : gmap string string
}.

(** What the caller of [Set], [Get] or [Delete] experiences: the value
    and the error it gets back, or a send on [input] that nobody
    receives any more. *)
Inductive Outcome :=
| Returned (v : option string) (e : option string)
| Blocked.

(** [GetKeyValueService(ctx, close)] on first use, with a context that is
    still live. *)
Definition GetKeyValueService : KeyValueService :=
  MkService [] true false ∅.

Definition Close (s : KeyValueService) : KeyValueService :=
  MkService (input s) false true (store s).

Definition closed_error : option string := Some "KeyValueService has been closed".

Definition CheckActive (s : KeyValueService) : option string :=
  if isActive s then None else closed_error.

(** [kvService.input <- command; res := <-outputCh].  Callers come one
    after the other, so the store goroutine is parked in its [select]
    when the command arrives, unless the context is done and it has
    returned. *)
Definition roundtrip (command : KeyValueCommand) (s : KeyValueService)
  : Outcome * KeyValueService :=
  if ctxDone s then (Blocked, s)
  else
    let '(m, res) := handle (store s) command in
    (Returned (value res) (err res),
     MkService (input s ++ [command]) (isActive s) (ctxDone s) m).

Definition Set_ (key value : string) (s : KeyValueService) : Outcome * KeyValueService :=
  match CheckActive s with
  | Some err => (Returned None (Some err), s)
  | None => roundtrip (MkCommand PUT key (Some value)) s
  end.

Definition Delete (key : string) (s : KeyValueService) : Outcome * KeyValueService :=
  match CheckActive s with
  | Some err => (Returned None (Some err), s)
  | None => roundtrip (MkCommand DELETE key None) s
  end.

Definition Get (key : string) (s : KeyValueService) : Outcome * KeyValueService :=
  match CheckActive s with
  | Some err => (Returned None (Some err), s)
  | None => roundtrip (MkCommand GET key None) s
  end.

(** A call of one of the three operations, as data. *)
Inductive Call :=
| CallSet (key value : string)
| CallGet (key : string)
| CallDelete (key : string).

Definition call_key (c : Call) : string :=
  match c with
  | CallSet k _ => k
  | CallGet k => k
  | CallDelete k => k
  end.

Definition call (c : Call) (s : KeyValueService) : Outcome * KeyValueService :=
  match c with
  | CallSet k v => Set_ k v s
  | CallGet k => Get k s
  | CallDelete k => Delete k s
  end.

(** A caller making the calls [cs] one after the other; it gets no
    further than a call that blocks. *)
Fixpoint calls (cs : list Call) (s : KeyValueService)
  : list Outcome * KeyValueService :=
  match cs with
  | [] => ([], s)
  | c :: cs =>
      match call c s with
      | (Blocked, s') => ([Blocked], s')
      | (r, s') => let '(rs, s'') := calls cs s' in (r :: rs, s'')
      end
  end.

(** The states the service goes through when it is only used through
    its methods. *)
Inductive reachable : KeyValueService → Prop :=
| reach_init : reachable GetKeyValueService
| reach_call c s : reachable s → reachable (call c s).2
| reach_close s : reachable s → reachable (Close s).

(** What the [select] of [Start] receives, in the order it receives it:
    a command from [input], or the closing of [ctx.Done()]. *)
Inductive Event :=
| Msg (command : KeyValueCommand)
| Done.

(** [Start]: the loop of the store goroutine, run on the events that
    reach it.  It returns the map it leaves and the replies it has sent,
    oldest first; it stops at the first [Done], and waits when the events
    are exhausted. *)
Fixpoint Start (store : gmap string string) (events : list Event)
  : gmap string string * list KeyValueOutput :=
  match events with
  | [] => (store, [])
  | Msg msg :: events =>
      let '(store, out) := handle store msg in
      let '(store, outs) := Start store events in
      (store, out :: outs)
  | Done :: _ => (store, [])
  end.

(** The commands the three methods of the service build. *)
Definition command_of (c : Call) : KeyValueCommand :=
  match c with
  | CallSet k v => MkCommand PUT k (Some v)
  | CallGet k => MkCommand GET k None
  | CallDelete k => MkCommand DELETE k None
  end.

(** A plain map to compare the service with: what a call does to it, and
    what it answers. *)
Definition map_step (m : gmap string string) (c : Call) : gmap string string :=
  match c with
  | CallSet k v => <[k := v]> m
  | CallGet _ => m
  | CallDelete k => delete k m
  end.

Definition map_answer (m : gmap string string) (c : Call) : Outcome :=
  match c with
  | CallSet _ v => Returned (Some v) None
  | CallGet k =>
      match m !! k with
      | Some v => Returned (Some v) None
      | None => Returned None (Some ("key " +:+ k +:+ " does not exist in the store"))
      end
  | CallDelete k => Returned (m !! k) None
  end.

Fixpoint map_answers (m : gmap string string) (cs : list Call) : list Outcome :=
  match cs with
  | [] => []
  | c :: cs => map_answer m c :: map_answers (map_step m c) cs
  end.

End kvstore.

(** * Package node *)

Module node.

Record Node := MkNode {
  id : Z;
  url : string
}.

Definition MakeNode (id : Z) (url : string) : Node := MkNode id url.

Record VNode := MkVNode {
  nodeId : Z;
  hash : Z
}.

Record NodeService := MkNodeService {
  nodesPerWeight : Z;
  nodes : gmap Z Node;
  vnodes : list VNode;
  latestNodeId : Z
}.

(** [hash/fnv]'s 32-bit FNV-1a: start from the offset basis, and for
    every byte xor it in and multiply by the prime, in [uint32]. *)
Definition offset32 : Z := 2166136261.
Definition prime32 : Z := 16777619.

Definition fnv32 (data : list Z) : Z :=
  foldl (λ h c, to_uint32 (Z.lxor h c * prime32)) offset32 data.

Definition MakeNodeService (nodesPerWeight : Z) : NodeService :=
  MkNodeService nodesPerWeight ∅ [] 0.

(** [sort.Slice] belongs to Go's library.  It is an interface here: a
    function that rearranges a slice, given the comparison of two of
    its elements.  What is assumed of it is stated where it is used
    ([SorterSpec] below). *)
Class Sorter := sort_Slice : (VNode → VNode → bool) → list VNode → list VNode.

(** The comparison [AddNode] passes to [sort.Slice]:
    [vnodes[i].hash < vnodes[j].hash]. *)
Definition hash_less (a b : VNode) : bool := hash a <? hash b.

(** The body of the loop [for i := range numVNodes]. *)
Definition add_vnode (id : Z) (vs : list VNode) (i : Z) : list VNode :=
  let key := itoa id +:+ "-" +:+ itoa i in
  let hash := fnv32 (bytes key) in
  vs ++ [MkVNode id hash].

Definition AddNode `{Sorter} (url : string) (weight : Z) (ns : NodeService)
  : NodeService :=
  let numVNodes := to_int (weight * nodesPerWeight ns) in
  let id := latestNodeId ns in
  let latest := to_int (latestNodeId ns + 1) in
  let vs := foldl (add_vnode id) (vnodes ns) (seqZ 0 numVNodes) in
  let vs := sort_Slice hash_less vs in
  MkNodeService (nodesPerWeight ns) (<[id := MakeNode id url]> (nodes ns)) vs latest.

Definition RemoveNode (id : Z) (ns : NodeService) : NodeService :=
  let out := filter (λ vn, id ≠ nodeId vn) (vnodes ns) in
  MkNodeService (nodesPerWeight ns) (delete id (nodes ns)) out (latestNodeId ns).

(** [s[i]] for an [int] index; [None] is the run-time panic. *)
Definition index {A} (s : list A) (i : Z) : option A :=
  if decide (0 ≤ i) then s !! Z.to_nat i else None.

(** [sort.Search(n, f)] of Go's library:
    [i, j := 0, n; for i < j { h := int(uint(i+j) >> 1); if !f(h) { i = h + 1 } else { j = h } }; return i].
    The closure [f] may panic, hence the [option].  An interval of
    [int]s is halved at most 64 times, which bounds the loop. *)
Fixpoint Search_loop (fuel : nat) (f : Z → option bool) (i j : Z) : option Z :=
  if decide (i < j) then
    match fuel with
    | O => None
    | S fuel =>
        let h := to_int (Z.shiftr (to_uint (i + j)) 1) in
        b ← f h;
        if negb b then Search_loop fuel f (to_int (h + 1)) j
        else Search_loop fuel f i h
    end
  else Some i.

Definition Search (n : Z) (f : Z → option bool) : option Z :=
  Search_loop 64 f 0 n.

Definition FindNode (h : Z) (ns : NodeService) : option Node :=
  let len := Z.of_nat (length (vnodes ns)) in
  idx ← Search len (λ i, vn ← index (vnodes ns) i; Some (hash vn >=? h));
  let idx := if decide (idx = len) then 0 else idx in
  vn ← index (vnodes ns) idx;
  let node := default (MkNode 0 "") (nodes ns !! nodeId vn) in
  Some node.

(** The insertion sort [sort.Slice] runs on a slice of at most twelve
    elements: each element in turn moves left while it is less than its
    left neighbour.  [sift] works on the sorted prefix kept in reverse. *)
Fixpoint sift (less : VNode → VNode → bool) (x : VNode) (rev_prefix : list VNode)
  : list VNode :=
  match rev_prefix with
  | [] => [x]
  | y :: rest => if less x y then y :: sift less x rest else x :: y :: rest
  end.

Definition insertionSort (less : VNode → VNode → bool) (s : list VNode) : list VNode :=
  reverse (foldl (λ rev_prefix x, sift less x rev_prefix) [] s).

(** The insertion sort as an implementation of [sort.Slice]. *)
Definition insertion_sorter : Sorter := insertionSort.

(** [reachable npw n ns]: [ns] comes from [MakeNodeService npw] by
    calls of [AddNode] and [RemoveNode], [n] of them being [AddNode]. *)
Inductive reachable `{Sorter} (npw : Z) : nat → NodeService → Prop :=
| reach_make : reachable npw 0 (MakeNodeService npw)
| reach_add n ns url weight :
    reachable npw n ns → reachable npw (S n) (AddNode url weight ns)
| reach_remove n ns id :
    reachable npw n ns → reachable npw n (RemoveNode id ns).

(** The ring is in ascending order of hash. *)
Definition ring_sorted (vs : list VNode) : Prop :=
  StronglySorted (λ a b, hash a ≤ hash b) vs.

(** A comparison fit for sorting: a strict weak order. *)
Record StrictWeakOrder (less : VNode → VNode → bool) : Prop := {
  less_asym a b : less a b = true → less b a = false;
  less_cotrans a b c : less a c = true → less a b = true ∨ less b c = true
}.

(** [s] is in order for [less]: no element is less than an earlier one. *)
Definition sorted_by (less : VNode → VNode → bool) (s : list VNode) : Prop :=
  StronglySorted (λ a b, less b a = false) s.

(** What is assumed of [sort.Slice], as its documentation has it: it
    rearranges the slice, and puts it in order for the comparison it is
    given.  (The documentation promises nothing on the order of elements
    that compare equal.) *)
Class SorterSpec `{Sorter} : Prop := {
  sort_Slice_perm less s : sort_Slice less s ≡ₚ s;
  sort_Slice_sorted less s : StrictWeakOrder less → sorted_by less (sort_Slice less s)
}.

(** The virtual nodes [AddNode] makes for node [id]. *)
Definition vnodes_of (id numVNodes : Z) : list VNode :=
  (λ i, MkVNode id (fnv32 (bytes (itoa id +:+ "-" +:+ itoa i)))) <$> seqZ 0 numVNodes.

(** Every virtual node refers to a registered node. *)
Definition vnodes_registered (ns : NodeService) : Prop :=
  ∀ vn, vn ∈ vnodes ns →
    ∃ node, nodes ns !! nodeId vn = Some node ∧ id node = nodeId vn.

(** A small ring: three nodes per weight; node 0 of weight 2 at ["a"],
    then node 1 of weight 1 at ["b"]; [sort.Slice] is the insertion sort
    it runs on so short a slice. *)
Definition ring_ab : NodeService :=
  @AddNode insertion_sorter "b" 1 (@AddNode insertion_sorter "a" 2 (MakeNodeService 3)).

(** The virtual node a key of hash [h] falls to, found by going along
    the ring: the first whose hash is at least [h], or else the first
    of all. *)
Definition successor (h : Z) (vs : list VNode) : option VNode :=
  match list_find (λ vn, h ≤ hash vn) vs with
  | Some (_, vn) => Some vn
  | None => head vs
  end.

(** [owns h vs v]: among the virtual nodes [vs], [v] is the one of
    least hash at or above [h], or the one of least hash of all when
    none is at or above [h]. *)
Definition owns (h : Z) (vs : list VNode) (v : VNode) : Prop :=
  v ∈ vs ∧
  ((h ≤ hash v ∧ ∀ u, u ∈ vs → h ≤ hash u → hash v ≤ hash u) ∨
   ((∀ u, u ∈ vs → hash u < h) ∧ ∀ u, u ∈ vs → hash v ≤ hash u)).

End node.

(** * Command node: the HTTP front of the store *)

Module nodecmd.

(** The JSON document of a reply, before encoding. *)
Record response := MkResponse {
  Success : bool;
  Value : option string;
  Error : string
}.

(** [net/http]'s status codes. *)
Definition StatusOK : Z := 200.
Definition StatusBadRequest : Z := 400.
Definition StatusNotFound : Z := 404.
Definition StatusMethodNotAllowed : Z := 405.
Definition StatusInternalServerError : Z := 500.

(** What a handler reads of the request: [r.Method], the query
    parameter [r.URL.Query().Get("key")] (empty when there is none), and
    what decoding the body into a [setRequest] gives: [None] when
    [Decode] returns an error, else the [Value] field. *)
Record Request := MkRequest {
  Method : string;
  QueryKey : string;
  Body : option string
}.

(** What a handler has written to the [http.ResponseWriter]: the
    [Content-Type] header, the status ([StatusOK] unless [WriteHeader]
    was called) and the document handed to the JSON encoder. *)
Record Written := MkWritten {
  contentType : string;
  status : Z;
  body : response
}.

Definition written (status : Z) (body : response) : Written :=
  MkWritten "application/json" status body.

(** The handlers return what they wrote, or [None] when the call of the
    service never comes back, together with the service after the call. *)
Definition handleGet (key : string) (kv : kvstore.KeyValueService)
  : option Written * kvstore.KeyValueService :=
  match kvstore.Get key kv with
  | (kvstore.Blocked, kv) => (None, kv)
  | (kvstore.Returned val (Some err), kv) =>
      (Some (written StatusNotFound (MkResponse false None err)), kv)
  | (kvstore.Returned val None, kv) =>
      (Some (written StatusOK (MkResponse true val "")), kv)
  end.

Definition handleSet (r : Request) (key : string) (kv : kvstore.KeyValueService)
  : option Written * kvstore.KeyValueService :=
  match Body r with
  | None =>
      (Some (written StatusBadRequest (MkResponse false None "invalid JSON body")), kv)
  | Some req_Value =>
      match kvstore.Set_ key req_Value kv with
      | (kvstore.Blocked, kv) => (None, kv)
      | (kvstore.Returned val (Some err), kv) =>
          (Some (written StatusInternalServerError (MkResponse false None err)), kv)
      | (kvstore.Returned val None, kv) =>
          (Some (written StatusOK (MkResponse true val "")), kv)
      end
  end.

Definition handleDelete (key : string) (kv : kvstore.KeyValueService)
  : option Written * kvstore.KeyValueService :=
  match kvstore.Delete key kv with
  | (kvstore.Blocked, kv) => (None, kv)
  | (kvstore.Returned val (Some err), kv) =>
      (Some (written StatusInternalServerError (MkResponse false None err)), kv)
  | (kvstore.Returned val None, kv) =>
      (Some (written StatusOK (MkResponse true val "")), kv)
  end.

Definition handleKV (r : Request) (kv : kvstore.KeyValueService)
  : option Written * kvstore.KeyValueService :=
  let key := QueryKey r in
  if decide (key = "") then
    (Some (written StatusBadRequest
             (MkResponse false None "missing 'key' query parameter")), kv)
  else if decide (Method r = "GET") then handleGet key kv
  else if decide (Method r = "POST" ∨ Method r = "PUT") then handleSet r key kv
  else if decide (Method r = "DELETE") then handleDelete key kv
  else (Some (written StatusMethodNotAllowed
                (MkResponse false None "method not allowed")), kv).

End nodecmd.

(** * The key-value store: properties *)

Section kvstore_properties.
Import kvstore.

Implicit Types (s : KeyValueService) (m : gmap string string).
Implicit Types (K V : string) (c : Call) (cs : list Call).

(** ** The store goroutine, command by command *)

Lemma handle_put m K V :
  handle m (MkCommand PUT K (Some V)) = (<[K := V]> m, MkOutput true (Some V) None).
Proof. reflexivity. Qed.

Lemma handle_get_present m K V cv :
  m !! K = Some V →
  handle m (MkCommand GET K cv) = (m, MkOutput true (Some V) None).
Proof. intros HK. unfold handle, ProcessCommand, ProcessGetCommand. simpl. by rewrite HK. Qed.

Lemma handle_get_absent m K cv :
  m !! K = None →
  handle m (MkCommand GET K cv)
  = (m, MkOutput false None (Some ("key " +:+ K +:+ " does not exist in the store"))).
Proof. intros HK. unfold handle, ProcessCommand, ProcessGetCommand. simpl. by rewrite HK. Qed.

Lemma handle_delete_present m K V cv :
  m !! K = Some V →
  handle m (MkCommand DELETE K cv) = (delete K m, MkOutput true (Some V) None).
Proof. intros HK. unfold handle, ProcessCommand, ProcessDeleteCommand. simpl. by rewrite HK. Qed.

Lemma handle_delete_absent m K cv :
  m !! K = None →
  handle m (MkCommand DELETE K cv) = (m, MkOutput true None None).
Proof. intros HK. unfold handle, ProcessCommand, ProcessDeleteCommand. simpl. by rewrite HK. Qed.

(** Whatever the command, the bindings of the other keys stay. *)
Lemma handle_frame m (command : KeyValueCommand) k :
  k ≠ key command → (handle m command).1 !! k = m !! k.
Proof.
  intros Hk. destruct command as [t K cv]. simpl in Hk.
  unfold handle, ProcessCommand, ProcessPutCommand, ProcessGetCommand,
    ProcessDeleteCommand. simpl.
  repeat case_decide; repeat case_match; simplify_eq/=;
    by rewrite ?lookup_insert_ne, ?lookup_delete_ne.
Qed.

(** ** The service *)

(** While the service is only used through its methods, the store
    goroutine runs exactly as long as the service is active. *)
Lemma reachable_active s : reachable s → isActive s = negb (ctxDone s).
Proof.
  induction 1 as [|c s _ IH|s _ IH]; [done| |done].
  destruct c; simpl; unfold Set_, Get, Delete, CheckActive, roundtrip;
    rewrite IH; destruct (ctxDone s) eqn:Hd; simpl;
    rewrite ?IH, ?Hd; try done; by destruct (handle _ _).
Qed.

Lemma roundtrip_live command s :
  ctxDone s = false →
  roundtrip command s
  = (Returned (value (handle (store s) command).2) (err (handle (store s) command).2),
     MkService (input s ++ [command]) (isActive s) false (handle (store s) command).1).
Proof. intros Hd. unfold roundtrip. rewrite Hd. by destruct (handle _ _). Qed.

Lemma Set_live K V s :
  isActive s = true → ctxDone s = false →
  Set_ K V s = (Returned (Some V) None,
                MkService (input s ++ [MkCommand PUT K (Some V)]) true false
                          (<[K := V]> (store s))).
Proof.
  intros Ha Hd. unfold Set_, CheckActive. rewrite Ha, roundtrip_live by done.
  by rewrite handle_put, Ha.
Qed.

Lemma Get_live K s :
  isActive s = true → ctxDone s = false →
  (Get K s).1 = match store s !! K with
                | Some V => Returned (Some V) None
                | None => Returned None (Some ("key " +:+ K +:+ " does not exist in the store"))
                end.
Proof.
  intros Ha Hd. unfold Get, CheckActive. rewrite Ha, roundtrip_live by done.
  destruct (store s !! K) as [V|] eqn:HK; simpl.
  - by rewrite (handle_get_present _ _ V).
  - by rewrite handle_get_absent.
Qed.

Lemma Delete_live K s :
  isActive s = true → ctxDone s = false →
  Delete K s = (Returned (store s !! K) None,
                MkService (input s ++ [MkCommand DELETE K None]) true false
                          (delete K (store s))).
Proof.
  intros Ha Hd. unfold Delete, CheckActive. rewrite Ha, roundtrip_live by done.
  rewrite Ha. destruct (store s !! K) as [V|] eqn:HK.
  - by rewrite (handle_delete_present _ _ V).
  - rewrite handle_delete_absent by done. simpl. by rewrite delete_id.
Qed.

(** A call on a live service returns, leaves the service live and only
    touches the binding of its own key. *)
Lemma call_live c s :
  isActive s = true → ctxDone s = false →
  (call c s).1 ≠ Blocked ∧
  isActive (call c s).2 = true ∧ ctxDone (call c s).2 = false ∧
  ∀ k, k ≠ call_key c → store (call c s).2 !! k = store s !! k.
Proof.
  intros Ha Hd. destruct c as [k v|k|k]; simpl.
  - rewrite Set_live by done. simpl. split_and!; try done.
    intros k' ?. by rewrite lookup_insert_ne.
  - unfold Get, CheckActive. rewrite Ha, roundtrip_live by done. simpl.
    split_and!; try done. intros k' ?. by apply handle_frame.
  - rewrite Delete_live by done. simpl. split_and!; try done.
    intros k' ?. by rewrite lookup_delete_ne.
Qed.

Lemma calls_live cs s :
  isActive s = true → ctxDone s = false →
  isActive (calls cs s).2 = true ∧ ctxDone (calls cs s).2 = false ∧
  ∀ k, Forall (λ c, call_key c ≠ k) cs → store (calls cs s).2 !! k = store s !! k.
Proof.
  revert s. induction cs as [|c cs IH]; intros s Ha Hd; [done|].
  destruct (call_live c s Ha Hd) as (Hr & Ha' & Hd' & Hfr).
  simpl. destruct (call c s) as [r s'] eqn:Hc. simpl in *.
  destruct r as [v e|]; [|done].
  destruct (IH s' Ha' Hd') as (Ha'' & Hd'' & Hfr').
  destruct (calls cs s') as [rs s''] eqn:Hcs. simpl in *.
  split_and!; try done.
  intros k Hk. apply Forall_cons in Hk as [Hk1 Hk2].
  rewrite Hfr' by done. apply Hfr. congruence.
Qed.

(** C1.  On an active service, [Set(K, V)] returns [V] and no error,
    and a later [Get(K)] returns [V] and no error, whatever calls on
    other keys are made in between. *)
Theorem Set_then_Get s K V cs :
  reachable s → isActive s = true → Forall (λ c, call_key c ≠ K) cs →
  (Set_ K V s).1 = Returned (Some V) None ∧
  (Get K (calls cs (Set_ K V s).2).2).1 = Returned (Some V) None.
Proof.
  intros Hr Ha Hcs.
  assert (ctxDone s = false) as Hd.
  { apply reachable_active in Hr. rewrite Ha in Hr. by destruct (ctxDone s). }
  rewrite Set_live by done. simpl. split; [done|].
  set (s1 := MkService _ _ _ _).
  destruct (calls_live cs s1 eq_refl eq_refl) as (Ha' & Hd' & Hfr).
  rewrite Get_live, Hfr by done. subst s1. simpl. by rewrite lookup_insert_eq.
Qed.

Lemma Set_then_Get_witness :
  (Set_ "hello" "world" GetKeyValueService).1 = Returned (Some "world") None ∧
  (Get "hello"
     (calls [CallSet "a" "b"; CallDelete "c"; CallGet "a"]
        (Set_ "hello" "world" GetKeyValueService).2).2).1
  = Returned (Some "world") None.
Proof.
  apply (Set_then_Get GetKeyValueService "hello" "world"
           [CallSet "a" "b"; CallDelete "c"; CallGet "a"]).
  - apply reach_init.
  - reflexivity.
  - repeat constructor; simpl; discriminate.
Defined.

(** C2.  For a key absent from the store, DELETE replies success with
    no value and no error and leaves the map as it is, so that a second
    DELETE does the same; GET replies failure with no value and the
    key-not-found error. *)
Theorem missing_key_asymmetry m K cv :
  m !! K = None →
  handle m (MkCommand DELETE K cv) = (m, MkOutput true None None) ∧
  handle (handle m (MkCommand DELETE K cv)).1 (MkCommand DELETE K cv)
  = (m, MkOutput true None None) ∧
  handle m (MkCommand GET K cv)
  = (m, MkOutput false None (Some ("key " +:+ K +:+ " does not exist in the store"))).
Proof.
  intros HK. rewrite (handle_delete_absent m) by done. simpl.
  by rewrite handle_delete_absent, handle_get_absent.
Qed.

Lemma missing_key_asymmetry_witness :
  handle ∅ (MkCommand DELETE "k" None) = (∅, MkOutput true None None) ∧
  handle (handle ∅ (MkCommand DELETE "k" None)).1 (MkCommand DELETE "k" None)
  = (∅, MkOutput true None None) ∧
  handle ∅ (MkCommand GET "k" None)
  = (∅, MkOutput false None (Some "key k does not exist in the store")).
Proof. apply (missing_key_asymmetry ∅ "k" None). reflexivity. Defined.

(** C7.  After [Close()], every call of [Set], [Get] or [Delete] returns
    a nil value and the service-closed error; the service, the map of
    the store and the history of the command channel stay as [Close]
    left them. *)
Theorem closed_service_rejects s cs :
  calls cs (Close s) = ((λ _, Returned None closed_error) <$> cs, Close s).
Proof.
  induction cs as [|c cs IH]; [done|].
  simpl. replace (call c (Close s)) with (Returned None closed_error, Close s)
    by (by destruct c).
  by rewrite IH.
Qed.

(** C8, as stated: every DELETE performs exactly one map mutation.  It
    fails for a key that is absent: [ProcessDeleteCommand] then leaves
    the map alone. *)
Lemma delete_absent_mutates_nothing :
  ¬ (length (ProcessCommand ∅ (MkCommand DELETE "k" None)).1 = 1%nat).
Proof. vm_compute. discriminate. Qed.

(** C8, amended.  A GET performs no mutation; a PUT that carries a value
    performs exactly one, the assignment to its key; a DELETE of a key
    that is present performs exactly one, the removal of its key; a PUT
    without a value and a DELETE of an absent key perform none.  In all
    cases the bindings of the other keys are unchanged. *)
Theorem command_mutations m (command : KeyValueCommand) :
  (∀ k, k ≠ key command → (handle m command).1 !! k = m !! k) ∧
  (commandType command = GET →
     (ProcessCommand m command).1 = [] ∧ (handle m command).1 = m) ∧
  (commandType command = PUT →
     (∀ v, cvalue command = Some v →
        (ProcessCommand m command).1 = [Assign (key command) v]) ∧
     (cvalue command = None → (ProcessCommand m command).1 = [])) ∧
  (commandType command = DELETE →
     (is_Some (m !! key command) →
        (ProcessCommand m command).1 = [Remove (key command)]) ∧
     (m !! key command = None → (ProcessCommand m command).1 = [])).
Proof.
  split; [intros k; apply handle_frame|].
  destruct command as [t K cv]. simpl.
  unfold handle, ProcessCommand, ProcessPutCommand, ProcessGetCommand,
    ProcessDeleteCommand. simpl.
  split_and!; intros ->; simpl.
  - by destruct (m !! K).
  - split; [by intros v ->|by intros ->].
  - split; [by intros [v ->]|by intros ->].
Qed.

Lemma command_mutations_witness :
  (ProcessCommand {[ "a" := "1" ]} (MkCommand GET "a" None)).1 = [] ∧
  (ProcessCommand {[ "a" := "1" ]} (MkCommand PUT "a" (Some "2"))).1 = [Assign "a" "2"] ∧
  (ProcessCommand {[ "a" := "1" ]} (MkCommand DELETE "a" None)).1 = [Remove "a"] ∧
  (ProcessCommand {[ "a" := "1" ]} (MkCommand DELETE "b" None)).1 = [] ∧
  (handle {[ "a" := "1" ]} (MkCommand PUT "b" (Some "2"))).1 !! "a" = Some "1".
Proof.
  split_and!.
  - destruct (command_mutations {[ "a" := "1" ]} (MkCommand GET "a" None))
      as (_ & Hget & _ & _).
    apply Hget. reflexivity.
  - destruct (command_mutations {[ "a" := "1" ]} (MkCommand PUT "a" (Some "2")))
      as (_ & _ & Hput & _).
    apply Hput; reflexivity.
  - destruct (command_mutations {[ "a" := "1" ]} (MkCommand DELETE "a" None))
      as (_ & _ & _ & Hdel).
    apply Hdel; [reflexivity|]. by exists "1".
  - destruct (command_mutations {[ "a" := "1" ]} (MkCommand DELETE "b" None))
      as (_ & _ & _ & Hdel).
    apply Hdel; reflexivity.
  - destruct (command_mutations {[ "a" := "1" ]} (MkCommand PUT "b" (Some "2")))
      as (Hframe & _).
    rewrite Hframe; [reflexivity|]. simpl. discriminate.
Defined.

(** C10.  On an active service [Set(K, "")] succeeds and a following
    [Get(K)] returns the empty string with no error: the empty string is
    a value held by the store, unlike the nil that [Delete] returns for
    a key that is absent. *)
Theorem empty_string_is_a_value s K K' :
  reachable s → isActive s = true → store s !! K' = None →
  (Set_ K "" s).1 = Returned (Some "") None ∧
  store (Set_ K "" s).2 !! K = Some "" ∧
  (Get K (Set_ K "" s).2).1 = Returned (Some "") None ∧
  (handle (store (Set_ K "" s).2) (MkCommand GET K None)).2
  = MkOutput true (Some "") None ∧
  (Delete K' s).1 = Returned None None ∧
  (Get K (Set_ K "" s).2).1 ≠ (Delete K' s).1.
Proof.
  intros Hr Ha HK'.
  assert (ctxDone s = false) as Hd.
  { apply reachable_active in Hr. rewrite Ha in Hr. by destruct (ctxDone s). }
  rewrite Set_live, Delete_live by done. simpl.
  rewrite Get_live by done. simpl.
  rewrite (handle_get_present _ K "") by apply lookup_insert_eq.
  rewrite lookup_insert_eq, HK'. done.
Qed.

Lemma empty_string_is_a_value_witness :
  (Set_ "k" "" GetKeyValueService).1 = Returned (Some "") None ∧
  store (Set_ "k" "" GetKeyValueService).2 !! "k" = Some "" ∧
  (Get "k" (Set_ "k" "" GetKeyValueService).2).1 = Returned (Some "") None ∧
  (handle (store (Set_ "k" "" GetKeyValueService).2) (MkCommand GET "k" None)).2
  = MkOutput true (Some "") None ∧
  (Delete "j" GetKeyValueService).1 = Returned None None ∧
  (Get "k" (Set_ "k" "" GetKeyValueService).2).1 ≠ (Delete "j" GetKeyValueService).1.
Proof.
  apply (empty_string_is_a_value GetKeyValueService "k" "j").
  - apply reach_init.
  - reflexivity.
  - reflexivity.
Defined.

(** ** Beyond the three calls *)

(** X1.  A command the store cannot serve, a PUT without a value or a
    command of a kind other than PUT, GET and DELETE ([UPDATE] is one),
    is answered with a failure that names the fault, carries no value,
    and leaves the map untouched. *)
Theorem malformed_command_refused m (command : KeyValueCommand) :
  (commandType command = PUT ∧ cvalue command = None) ∨
  (commandType command ≠ PUT ∧ commandType command ≠ GET ∧
   commandType command ≠ DELETE) →
  (ProcessCommand m command).1 = [] ∧
  (handle m command).1 = m ∧
  success (handle m command).2 = false ∧
  value (handle m command).2 = None ∧
  err (handle m command).2
  = Some (if decide (commandType command = PUT)
          then "value given was nil for put command"
          else "command type UNKNOWN not found").
Proof.
  destruct command as [t K cv]. simpl.
  unfold handle, ProcessCommand, ProcessPutCommand, GetCommandTypeString. simpl.
  intros [[-> ->]|(Hput & Hget & Hdel)].
  - done.
  - by rewrite !decide_False by done.
Qed.

Lemma malformed_command_refused_witness :
  handle {[ "a" := "1" ]} (MkCommand UPDATE "a" (Some "2"))
  = ({[ "a" := "1" ]}, MkOutput false None (Some "command type UNKNOWN not found")).
Proof.
  destruct (malformed_command_refused {[ "a" := "1" ]} (MkCommand UPDATE "a" (Some "2")))
    as (_ & Hm & Hs & Hv & He).
  - right. by vm_compute.
  - destruct (handle _ _) as [m [ok v e]]. simpl in *. by subst.
Defined.

(** X20.  [GetCommandTypeString] names the three kinds the store serves,
    each by its own name, and calls every other kind, [UPDATE] among
    them, ["UNKNOWN"]: the name tells the kinds apart. *)
Theorem command_type_names (t : Z) :
  (GetCommandTypeString t = "PUT" ↔ t = PUT) ∧
  (GetCommandTypeString t = "DELETE" ↔ t = DELETE) ∧
  (GetCommandTypeString t = "GET" ↔ t = GET) ∧
  (GetCommandTypeString t = "UNKNOWN" ↔ t ≠ PUT ∧ t ≠ DELETE ∧ t ≠ GET) ∧
  GetCommandTypeString UPDATE = "UNKNOWN".
Proof.
  unfold GetCommandTypeString, PUT, DELETE, GET, UPDATE.
  repeat case_decide; subst; split_and!; try done; split; try done;
    try (intros ?; lia); try (intros (? & ? & ?); lia).
Qed.

(** A live service answers a call as the plain map does. *)
Lemma call_as_map c s :
  isActive s = true → ctxDone s = false →
  call c s = (map_answer (store s) c,
              MkService (input s ++ [command_of c]) true false (map_step (store s) c)).
Proof.
  intros Ha Hd. destruct c as [k v|k|k]; simpl.
  - by apply Set_live.
  - unfold Get, CheckActive. rewrite Ha, roundtrip_live by done. rewrite Ha.
    destruct (store s !! k) as [v|] eqn:Hk.
    + by rewrite (handle_get_present _ _ v).
    + by rewrite handle_get_absent.
  - by apply Delete_live.
Qed.

(** X2.  An active service, goroutine and channels and all, is a plain
    map to its caller: a sequence of calls gets the answers the map
    gives, leaves the store holding what the map holds, and has sent one
    command per call. *)
Theorem service_refines_map s cs :
  reachable s → isActive s = true →
  (calls cs s).1 = map_answers (store s) cs ∧
  store (calls cs s).2 = foldl map_step (store s) cs ∧
  input (calls cs s).2 = input s ++ (command_of <$> cs) ∧
  isActive (calls cs s).2 = true.
Proof.
  intros Hr Ha.
  assert (ctxDone s = false) as Hd.
  { apply reachable_active in Hr. rewrite Ha in Hr. by destruct (ctxDone s). }
  clear Hr. revert s Ha Hd. induction cs as [|c cs IH]; intros s Ha Hd.
  { simpl. by rewrite app_nil_r. }
  simpl. rewrite call_as_map by done.
  set (s1 := MkService _ _ _ _).
  destruct (IH s1 eq_refl eq_refl) as (Hans & Hst & Hin & Hact).
  destruct (calls cs s1) as [rs s2] eqn:Hcs. simpl in *.
  assert (∀ r : Outcome,
            r = map_answer (store s) c →
            match r with
            | Blocked => ([Blocked], s1)
            | _ => (r :: rs, s2)
            end = (r :: rs, s2)) as Hret.
  { intros r ->. destruct c as [k v|k|k]; simpl; [done| |done].
    by destruct (store s !! k). }
  rewrite Hret by done. simpl. rewrite Hans, Hst, Hin, Hact.
  split_and!; try done. by rewrite <-app_assoc.
Qed.

Lemma service_refines_map_witness :
  (calls [CallSet "k" "1"; CallSet "k" "2"; CallGet "k"; CallDelete "k"; CallGet "k"]
     GetKeyValueService).1
  = [Returned (Some "1") None; Returned (Some "2") None; Returned (Some "2") None;
     Returned (Some "2") None;
     Returned None (Some "key k does not exist in the store")].
Proof.
  destruct (service_refines_map GetKeyValueService
              [CallSet "k" "1"; CallSet "k" "2"; CallGet "k"; CallDelete "k"; CallGet "k"])
    as (Hans & _).
  - apply reach_init.
  - reflexivity.
  - rewrite Hans. reflexivity.
Defined.

(** X3.  The last writer wins: after [Set(K, V1)] and [Set(K, V2)], and
    whatever calls on other keys before, between and after,
    [Get(K)] returns [V2]. *)
Theorem last_writer_wins s K V1 V2 cs1 cs2 :
  reachable s → isActive s = true →
  Forall (λ c, call_key c ≠ K) cs1 → Forall (λ c, call_key c ≠ K) cs2 →
  let s1 := (Set_ K V1 s).2 in
  let s2 := (Set_ K V2 (calls cs1 s1).2).2 in
  (Get K (calls cs2 s2).2).1 = Returned (Some V2) None.
Proof.
  intros Hr Ha Hcs1 Hcs2 s1 s2.
  assert (ctxDone s = false) as Hd.
  { apply reachable_active in Hr. rewrite Ha in Hr. by destruct (ctxDone s). }
  subst s1 s2. rewrite (Set_live K V1) by done. simpl.
  set (s1 := MkService _ _ _ _).
  destruct (calls_live cs1 s1 eq_refl eq_refl) as (Ha1 & Hd1 & _).
  rewrite (Set_live K V2) by done. simpl.
  set (s2 := MkService _ _ _ _).
  destruct (calls_live cs2 s2 eq_refl eq_refl) as (Ha2 & Hd2 & Hfr).
  rewrite Get_live, Hfr by done. subst s2. simpl. by rewrite lookup_insert_eq.
Qed.

Lemma last_writer_wins_witness :
  (Get "foo"
     (calls [CallDelete "x"]
        (Set_ "foo" "baz"
           (calls [CallSet "x" "y"] (Set_ "foo" "bar" GetKeyValueService).2).2).2).2).1
  = Returned (Some "baz") None.
Proof.
  apply (last_writer_wins GetKeyValueService "foo" "bar" "baz"
           [CallSet "x" "y"] [CallDelete "x"]).
  - apply reach_init.
  - reflexivity.
  - repeat constructor; simpl; discriminate.
  - repeat constructor; simpl; discriminate.
Defined.

(** X4.  [Delete] of a key that is present returns the value it held
    and no error, and from then on [Get] of the key fails with the
    key-not-found error and no value, until the key is set again. *)
Theorem Delete_then_Get s K V cs :
  reachable s → isActive s = true → store s !! K = Some V →
  Forall (λ c, call_key c ≠ K) cs →
  (Delete K s).1 = Returned (Some V) None ∧
  (Get K (calls cs (Delete K s).2).2).1
  = Returned None (Some ("key " +:+ K +:+ " does not exist in the store")).
Proof.
  intros Hr Ha HK Hcs.
  assert (ctxDone s = false) as Hd.
  { apply reachable_active in Hr. rewrite Ha in Hr. by destruct (ctxDone s). }
  rewrite Delete_live by done. simpl. rewrite HK. split; [done|].
  set (s1 := MkService _ _ _ _).
  destruct (calls_live cs s1 eq_refl eq_refl) as (Ha1 & Hd1 & Hfr).
  rewrite Get_live, Hfr by done. subst s1. simpl. by rewrite lookup_delete_eq.
Qed.

Lemma Delete_then_Get_witness :
  let s := (Set_ "foo" "bar" GetKeyValueService).2 in
  (Delete "foo" s).1 = Returned (Some "bar") None ∧
  (Get "foo" (calls [CallSet "x" "y"] (Delete "foo" s).2).2).1
  = Returned None (Some "key foo does not exist in the store").
Proof.
  intros s.
  apply (Delete_then_Get s "foo" "bar" [CallSet "x" "y"]).
  - apply (reach_call (CallSet "foo" "bar")), reach_init.
  - reflexivity.
  - reflexivity.
  - repeat constructor; simpl; discriminate.
Defined.



(** [Start] on commands alone: one more command, one more turn. *)
Lemma Start_snoc m (cmds : list KeyValueCommand) (command : KeyValueCommand) :
  Start m (Msg <$> (cmds ++ [command]))
  = ((handle (Start m (Msg <$> cmds)).1 command).1,
     (Start m (Msg <$> cmds)).2 ++ [(handle (Start m (Msg <$> cmds)).1 command).2]).
Proof.
  revert m. induction cmds as [|c0 cmds IH]; intros m.
  - simpl. by destruct (handle m command).
  - rewrite <-app_comm_cons, !fmap_cons. cbn [Start].
    destruct (handle m c0) as [m0 out0]. rewrite IH.
    by destruct (Start m0 (Msg <$> cmds)) as [m1 outs].
Qed.

Lemma handle_command_of m c : (handle m (command_of c)).1 = map_step m c.
Proof.
  destruct c as [k v|k|k]; cbn [command_of map_step].
  - by rewrite handle_put.
  - destruct (m !! k) as [v|] eqn:Hk.
    + by rewrite (handle_get_present _ _ v).
    + by rewrite handle_get_absent.
  - destruct (m !! k) as [v|] eqn:Hk.
    + by rewrite (handle_delete_present _ _ v).
    + rewrite handle_delete_absent by done. simpl. by rewrite delete_id.
Qed.

(** X6.  The map of the store is what the loop [Start] makes of the
    commands sent on the channel so far, starting from the empty map;
    and every one of these commands is one that [Set], [Get] or [Delete]
    builds, so none is a PUT without a value or of an unknown kind. *)
Theorem store_replays_input s :
  reachable s →
  (Start ∅ (Msg <$> input s)).1 = store s ∧
  length (Start ∅ (Msg <$> input s)).2 = length (input s) ∧
  Forall (λ command, ∃ c, command = command_of c) (input s).
Proof.
  induction 1 as [|c s Hr (IHm & IHl & IHw)|s Hr IH]; [done| |done].
  pose proof (reachable_active s Hr) as Hinv.
  destruct (isActive s) eqn:Ha.
  - assert (ctxDone s = false) as Hd by (by destruct (ctxDone s)).
    rewrite call_as_map by done. cbn [snd input store].
    rewrite Start_snoc. cbn [fst snd].
    rewrite IHm, handle_command_of, !length_app, IHl. simpl. split_and!; [done|done|].
    + apply Forall_app. split; [done|]. constructor; [by exists c|constructor].
  - assert (call c s = (Returned None closed_error, s)) as ->.
    { destruct c; simpl; unfold Set_, Get, Delete, CheckActive; by rewrite Ha. }
    done.
Qed.

Lemma store_replays_input_witness :
  let s := (call (CallDelete "a")
              (call (CallGet "b")
                 (call (CallSet "a" "1") GetKeyValueService).2).2).2 in
  (Start ∅ (Msg <$> input s)).1 = store s.
Proof.
  intros s. apply (store_replays_input s).
  apply (reach_call (CallDelete "a")), (reach_call (CallGet "b")),
    (reach_call (CallSet "a" "1")), reach_init.
Defined.

(** X7.  [Start] replies once to each command that reaches it before the
    context is done, and to none after: what follows the closing of
    [ctx.Done()] changes neither the map nor the replies. *)
Theorem Start_stops_at_Done m (cmds : list KeyValueCommand) (events : list Event) :
  Start m ((Msg <$> cmds) ++ Done :: events) = Start m (Msg <$> cmds) ∧
  length (Start m (Msg <$> cmds)).2 = length cmds.
Proof.
  revert m. induction cmds as [|c0 cmds IH]; intros m; [done|].
  rewrite fmap_cons, <-app_comm_cons. cbn [Start length].
  destruct (handle m c0) as [m0 out0]. destruct (IH m0) as [-> Hlen].
  destruct (Start m0 (Msg <$> cmds)). simpl in *. by rewrite Hlen.
Qed.

End kvstore_properties.

(** * The hash ring: properties *)

Section node_properties.
Import node.

Implicit Types (ns : NodeService) (vn : VNode) (vs : list VNode).

(** ** Machine integers *)

Lemma to_int_small z : int_min ≤ z ≤ int_max → to_int z = z.
Proof.
  unfold int_min, int_max, to_int. intros Hz.
  rewrite Z.mod_small by lia. lia.
Qed.

Lemma to_int_add_l a b : to_int (to_int a + b) = to_int (a + b).
Proof.
  unfold to_int. f_equal.
  replace ((a + 2 ^ 63) `mod` 2 ^ 64 - 2 ^ 63 + b + 2 ^ 63)
    with ((a + 2 ^ 63) `mod` 2 ^ 64 + b) by lia.
  rewrite Z.add_mod_idemp_l by lia. f_equal. lia.
Qed.

Lemma to_uint_small z : 0 ≤ z < 2 ^ 64 → to_uint z = z.
Proof. unfold to_uint. intros Hz. by rewrite Z.mod_small. Qed.

(** The midpoint [int(uint(i+j) >> 1)] of two indices. *)
Lemma midpoint i j :
  0 ≤ i → i < j → j ≤ int_max →
  to_int (Z.shiftr (to_uint (i + j)) 1) = (i + j) `div` 2.
Proof.
  unfold int_max. intros Hi Hij Hj.
  rewrite to_uint_small by lia. rewrite Z.shiftr_div_pow2 by lia.
  change (2 ^ 1) with 2. apply to_int_small. unfold int_min, int_max.
  split; [|apply Z.div_le_upper_bound]; try lia.
  transitivity 0; [lia|]. apply Z.div_pos; lia.
Qed.

(** ** FNV-1a and the virtual nodes of a node *)

Example fnv32_empty : fnv32 (bytes "") = 2166136261.
Proof. reflexivity. Qed.

Example fnv32_a : fnv32 (bytes "a") = 0xe40c292c.
Proof. reflexivity. Qed.

Example fnv32_foobar : fnv32 (bytes "foobar") = 0xbf9cf968.
Proof. reflexivity. Qed.

Lemma fnv32_range data : 0 ≤ fnv32 data < 2 ^ 32.
Proof.
  unfold fnv32. induction data as [|c data IH] using rev_ind; [done|].
  rewrite foldl_app. simpl. unfold to_uint32. apply Z.mod_pos_bound. lia.
Qed.

Lemma add_vnodes id vs (l : list Z) :
  foldl (add_vnode id) vs l
  = vs ++ ((λ i, MkVNode id (fnv32 (bytes (itoa id +:+ "-" +:+ itoa i)))) <$> l).
Proof.
  revert vs. induction l as [|i l IH]; intros vs; simpl.
  - by rewrite app_nil_r.
  - rewrite IH. unfold add_vnode. by rewrite <-app_assoc.
Qed.

Lemma vnodes_of_nodeId id k vn : vn ∈ vnodes_of id k → nodeId vn = id.
Proof. unfold vnodes_of. intros (i & -> & _)%list_elem_of_fmap. done. Qed.

Lemma vnodes_of_length id k : length (vnodes_of id k) = Z.to_nat k.
Proof. unfold vnodes_of. by rewrite length_fmap, length_seqZ. Qed.

Lemma filter_none {A} (P : A → Prop) `{∀ x, Decision (P x)} (l : list A) :
  (∀ x, x ∈ l → ¬ P x) → filter P l = [].
Proof.
  induction l as [|x l IH]; intros Hl; [done|].
  rewrite filter_cons, decide_False by (apply Hl; left).
  apply IH. intros y Hy. apply Hl. by right.
Qed.

Lemma filter_all {A} (P : A → Prop) `{∀ x, Decision (P x)} (l : list A) :
  (∀ x, x ∈ l → P x) → filter P l = l.
Proof.
  induction l as [|x l IH]; intros Hl; [done|].
  rewrite filter_cons, decide_True by (apply Hl; left).
  f_equal. apply IH. intros y Hy. apply Hl. by right.
Qed.

(** ** The comparison of hashes *)

Lemma hash_less_strict_weak : StrictWeakOrder hash_less.
Proof.
  split; unfold hash_less; intros a b.
  - intros ?%Z.ltb_lt. apply Z.ltb_ge. lia.
  - intros c ?%Z.ltb_lt. destruct (decide (hash a < hash b)).
    + left. by apply Z.ltb_lt.
    + right. apply Z.ltb_lt. lia.
Qed.

Lemma sorted_by_hash_less vs : sorted_by hash_less vs → ring_sorted vs.
Proof.
  unfold sorted_by, ring_sorted. induction 1 as [|a l _ IH Ha]; constructor; [done|].
  eapply Forall_impl; [exact Ha|]. unfold hash_less. intros b ?%Z.ltb_ge. lia.
Qed.

Lemma ring_sorted_filter (P : VNode → Prop) `{∀ vn, Decision (P vn)} vs :
  ring_sorted vs → ring_sorted (filter P vs).
Proof.
  unfold ring_sorted. induction 1 as [|a l _ IH Ha]; [constructor|].
  rewrite filter_cons. case_decide; [|done].
  constructor; [done|]. apply Forall_forall. intros b [_ Hb]%list_elem_of_filter.
  rewrite Forall_forall in Ha. by apply Ha.
Qed.

Lemma ring_sorted_lookup vs (i j : nat) a b :
  ring_sorted vs → vs !! i = Some a → vs !! j = Some b → (i ≤ j)%nat →
  hash a ≤ hash b.
Proof.
  unfold ring_sorted. intros Hs. revert i j.
  induction Hs as [|x l _ IH Hx]; intros i j Hi Hj Hij; [done|].
  destruct i as [|i], j as [|j]; simplify_eq/=; try lia.
  - rewrite Forall_forall in Hx. apply Hx. by eapply list_elem_of_lookup_2.
  - eapply IH; eauto. lia.
Qed.

(** ** The insertion sort meets what is assumed of [sort.Slice] *)

Lemma sift_perm less x rp : sift less x rp ≡ₚ x :: rp.
Proof.
  induction rp as [|y rp IH]; simpl; [done|].
  destruct (less x y); [|done]. rewrite IH. apply Permutation_swap.
Qed.

Lemma sift_sorted less x rp :
  StrictWeakOrder less →
  StronglySorted (λ a b, less a b = false) rp →
  StronglySorted (λ a b, less a b = false) (sift less x rp).
Proof.
  intros [Hasym Hco]. induction 1 as [|y rp Hrp IH Hy]; simpl.
  - repeat constructor.
  - destruct (less x y) eqn:Hxy.
    + constructor; [done|]. rewrite sift_perm. constructor; [|done]. by apply Hasym.
    + constructor; [by constructor|]. constructor; [done|].
      rewrite Forall_forall in Hy |- *. intros z Hz.
      destruct (less x z) eqn:Hxz; [|done].
      destruct (Hco x y z Hxz) as [?|Hyz]; [congruence|].
      specialize (Hy z Hz). congruence.
Qed.

Lemma insertion_steps_perm less s rp :
  foldl (λ rp x, sift less x rp) rp s ≡ₚ s ++ rp.
Proof.
  revert rp. induction s as [|x s IH]; intros rp; simpl; [done|].
  rewrite IH, sift_perm. by rewrite Permutation_middle.
Qed.

Lemma insertion_steps_sorted less s rp :
  StrictWeakOrder less →
  StronglySorted (λ a b, less a b = false) rp →
  StronglySorted (λ a b, less a b = false) (foldl (λ rp x, sift less x rp) rp s).
Proof.
  intros Hless. revert rp. induction s as [|x s IH]; intros rp Hrp; simpl; [done|].
  by apply IH, sift_sorted.
Qed.

Lemma StronglySorted_reverse {A} (R : relation A) (l : list A) :
  StronglySorted R l → StronglySorted (flip R) (reverse l).
Proof.
  induction 1 as [|x l _ IH Hx]; [constructor|].
  rewrite reverse_cons. apply StronglySorted_app_2; [|done|repeat constructor].
  intros a b Ha ->%list_elem_of_singleton.
  rewrite Forall_forall in Hx. apply Hx. by apply elem_of_reverse.
Qed.

Lemma insertion_sorter_spec : @SorterSpec insertion_sorter.
Proof.
  split; unfold sort_Slice, insertion_sorter, insertionSort.
  - intros less s. by rewrite reverse_Permutation, insertion_steps_perm, app_nil_r.
  - intros less s Hless. unfold sorted_by.
    apply (StronglySorted_reverse (λ a b, less a b = false)).
    apply insertion_steps_sorted; [done|constructor].
Qed.

(** The comparison of [AddNode] cannot tell two virtual nodes of the
    same hash apart, and what is assumed of [sort.Slice] leaves their
    order open: the insertion sort, and the insertion sort of the slice
    read backwards, both meet it, and disagree on such a pair. *)
Lemma hash_less_tie a b :
  hash a = hash b → hash_less a b = false ∧ hash_less b a = false.
Proof. unfold hash_less. intros ->. by rewrite Z.ltb_irrefl. Qed.

Lemma ties_left_open :
  ∃ sort1 sort2 : Sorter,
    @SorterSpec sort1 ∧ @SorterSpec sort2 ∧
    @sort_Slice sort1 hash_less [MkVNode 0 7; MkVNode 1 7]
    ≠ @sort_Slice sort2 hash_less [MkVNode 0 7; MkVNode 1 7].
Proof.
  exists insertion_sorter, (λ less s, insertionSort less (reverse s)).
  split_and!; [apply insertion_sorter_spec| |by vm_compute].
  split.
  - intros less s. etrans; [apply (@sort_Slice_perm _ insertion_sorter_spec)|].
    apply reverse_Permutation.
  - intros less s. apply (@sort_Slice_sorted _ insertion_sorter_spec).
Qed.

(** ** Binary search *)

(** [sort.Search] on a predicate that is defined on [0, n) and, once
    true, stays true: the loop ends within its 64 rounds, and returns
    the least index at which the predicate holds, or [n]. *)
Lemma Search_loop_spec (f : Z → option bool) (n : Z) (fuel : nat) (i j : Z) :
  n ≤ int_max →
  (∀ k, 0 ≤ k < n → is_Some (f k)) →
  (∀ k k', 0 ≤ k ≤ k' → k' < n → f k = Some true → f k' = Some true) →
  0 ≤ i ≤ j → j ≤ n → j - i < 2 ^ Z.of_nat fuel →
  (∀ k, 0 ≤ k < i → f k = Some false) →
  (∀ k, j ≤ k < n → f k = Some true) →
  ∃ r, Search_loop fuel f i j = Some r ∧ i ≤ r ≤ j ∧
       (∀ k, 0 ≤ k < r → f k = Some false) ∧
       (∀ k, r ≤ k < n → f k = Some true).
Proof.
  intros Hn Hdef Hmono. revert i j.
  induction fuel as [|fuel IH]; intros i j Hij Hjn Hw Hlo Hhi.
  - simpl in *. assert (i = j) as -> by lia.
    rewrite decide_False by lia. exists j. split_and!; [done|lia|lia|done..].
  - simpl. case_decide as Hlt; [|exists i; assert (i = j) as -> by lia; split_and!; [done|lia|lia|done..]].
    rewrite midpoint by lia.
    set (h := (i + j) `div` 2).
    assert (i ≤ h < j) as Hh by (subst h; split; [apply Z.div_le_lower_bound|apply Z.div_lt_upper_bound]; lia).
    assert (2 * h ≤ i + j < 2 * h + 2) as Hh2.
    { subst h. pose proof (Z.div_mod (i + j) 2 ltac:(lia)).
      pose proof (Z.mod_pos_bound (i + j) 2 ltac:(lia)). lia. }
    assert (2 ^ Z.of_nat (S fuel) = 2 * 2 ^ Z.of_nat fuel) as Hpow.
    { rewrite Nat2Z.inj_succ, Z.pow_succ_r by lia. done. }
    destruct (Hdef h ltac:(lia)) as [b Hb]. rewrite Hb. simpl.
    destruct b; simpl.
    + destruct (IH i h) as (r & Hr & Hir & Hrlo & Hrhi); try lia; try done.
      { intros k Hk. apply (Hmono h k); [lia|lia|done]. }
      exists r. split_and!; try done; lia.
    + rewrite to_int_small by (unfold int_min, int_max in *; lia).
      destruct (IH (h + 1) j) as (r & Hr & Hir & Hrlo & Hrhi); try lia; try done.
      { intros k Hk. destruct (f k) as [[]|] eqn:Hfk; [|done|].
        - pose proof (Hmono k h ltac:(lia) ltac:(lia) Hfk). congruence.
        - destruct (Hdef k ltac:(lia)) as [? ?]. congruence. }
      exists r. split_and!; try done; lia.
Qed.

Lemma Search_spec (f : Z → option bool) (n : Z) :
  0 ≤ n ≤ int_max →
  (∀ k, 0 ≤ k < n → is_Some (f k)) →
  (∀ k k', 0 ≤ k ≤ k' → k' < n → f k = Some true → f k' = Some true) →
  ∃ r, Search n f = Some r ∧ 0 ≤ r ≤ n ∧
       (∀ k, 0 ≤ k < r → f k = Some false) ∧
       (∀ k, r ≤ k < n → f k = Some true).
Proof.
  intros Hn Hdef Hmono. unfold Search.
  apply (Search_loop_spec f n 64 0 n); try done; try lia.
  unfold int_max in Hn. simpl. lia.
Qed.

(** ** [AddNode] and [RemoveNode], step by step *)

Section ring.
Context `{SorterSpec}.

Lemma AddNode_vnodes url weight ns :
  vnodes (AddNode url weight ns)
  ≡ₚ vnodes ns ++ vnodes_of (latestNodeId ns) (to_int (weight * nodesPerWeight ns)).
Proof. unfold AddNode. simpl. by rewrite sort_Slice_perm, add_vnodes. Qed.

Lemma AddNode_sorted url weight ns : ring_sorted (vnodes (AddNode url weight ns)).
Proof.
  unfold AddNode. simpl.
  apply sorted_by_hash_less, sort_Slice_sorted, hash_less_strict_weak.
Qed.

Lemma RemoveNode_sorted id ns :
  ring_sorted (vnodes ns) → ring_sorted (vnodes (RemoveNode id ns)).
Proof. unfold RemoveNode. simpl. apply ring_sorted_filter. Qed.

Lemma AddNode_registered url weight ns :
  vnodes_registered ns → vnodes_registered (AddNode url weight ns).
Proof.
  intros Hreg vn Hvn. rewrite AddNode_vnodes in Hvn.
  unfold AddNode. simpl.
  destruct (decide (nodeId vn = latestNodeId ns)) as [->|Hne].
  { rewrite lookup_insert_eq. by eexists. }
  rewrite lookup_insert_ne by done.
  apply elem_of_app in Hvn as [Hvn|Hvn]; [by apply Hreg|].
  by apply vnodes_of_nodeId in Hvn.
Qed.

Lemma RemoveNode_registered id ns :
  vnodes_registered ns → vnodes_registered (RemoveNode id ns).
Proof.
  intros Hreg vn. unfold RemoveNode. simpl.
  intros [Hne Hvn]%list_elem_of_filter.
  rewrite lookup_delete_ne by done. by apply Hreg.
Qed.

(** ** What holds of every ring *)

Lemma reachable_inv npw n ns :
  reachable npw n ns →
  nodesPerWeight ns = npw ∧
  latestNodeId ns = to_int (Z.of_nat n) ∧
  ring_sorted (vnodes ns) ∧
  vnodes_registered ns.
Proof.
  induction 1 as [|n ns url weight _ (Hnpw & Hid & Hs & Hreg)
                  |n ns id _ (Hnpw & Hid & Hs & Hreg)].
  - split_and!; try done; [constructor|]. by intros vn ?%elem_of_nil.
  - split_and!; [done| |apply AddNode_sorted|by apply AddNode_registered].
    unfold AddNode. simpl. rewrite Hid, to_int_add_l. f_equal. lia.
  - split_and!; [done|done|by apply RemoveNode_sorted|by apply RemoveNode_registered].
Qed.

(** As long as the counter has not wrapped around, the ids in use are
    the ones below it. *)
Lemma reachable_ids_below npw n ns :
  reachable npw n ns → Z.of_nat n ≤ int_max + 1 →
  (∀ k, is_Some (nodes ns !! k) → 0 ≤ k < Z.of_nat n) ∧
  (∀ vn, vn ∈ vnodes ns → 0 ≤ nodeId vn < Z.of_nat n).
Proof.
  induction 1 as [|n ns url weight Hr IH|n ns id Hr IH]; intros Hn.
  - split; [intros k [? Hk]; simpl in Hk; by rewrite lookup_empty in Hk|by intros vn ?%elem_of_nil].
  - destruct IH as [IHn IHv]; [lia|].
    destruct (reachable_inv _ _ _ Hr) as (_ & Hid & _).
    rewrite to_int_small in Hid by (unfold int_min, int_max in *; lia).
    split.
    + intros k. unfold AddNode. simpl. rewrite Hid.
      destruct (decide (k = Z.of_nat n)) as [->|Hne]; [lia|].
      rewrite lookup_insert_ne by done. intros ?%IHn. lia.
    + intros vn. rewrite AddNode_vnodes, Hid.
      intros [?%IHv|Hv%vnodes_of_nodeId]%elem_of_app; lia.
  - destruct IH as [IHn IHv]; [lia|]. split.
    + intros k. unfold RemoveNode. simpl.
      destruct (decide (id = k)) as [->|Hne].
      * rewrite lookup_delete_eq. by intros [? ?].
      * rewrite lookup_delete_ne by done. apply IHn.
    + intros vn. unfold RemoveNode. simpl.
      intros [_ Hvn]%list_elem_of_filter. by apply IHv.
Qed.

(** ** Lookup *)

(** The test [FindNode] hands to [sort.Search]. *)
Lemma probe_lookup vs h k b :
  (vn ← index vs k; Some (hash vn >=? h)) = Some b ↔
  0 ≤ k ∧ ∃ vn, vs !! Z.to_nat k = Some vn ∧ b = (hash vn >=? h).
Proof.
  unfold index. case_decide as Hk; simpl.
  - destruct (vs !! Z.to_nat k) as [vn|]; simpl.
    + split; [intros [= <-]; eauto|]. by intros (_ & vn' & [= <-] & ->).
    + split; [done|]. by intros (_ & vn' & ? & _).
  - split; [done|]. by intros [? _].
Qed.

(** C3.  On a ring that is not empty, [FindNode(h)] returns the node
    that owns the first virtual node, in the order of the ring, whose
    hash is at least [h]; when every hash is below [h], it returns the
    node that owns the virtual node at index 0. *)
Theorem FindNode_successor npw n ns h :
  reachable npw n ns → vnodes ns ≠ [] →
  Z.of_nat (length (vnodes ns)) ≤ int_max →
  ∃ (idx : nat) vn node,
    FindNode h ns = Some node ∧
    vnodes ns !! idx = Some vn ∧
    nodes ns !! nodeId vn = Some node ∧ node.(node.id) = nodeId vn ∧
    ((h ≤ hash vn ∧
      ∀ (j : nat) v, (j < idx)%nat → vnodes ns !! j = Some v → hash v < h) ∨
     (idx = 0%nat ∧ ∀ v, v ∈ vnodes ns → hash v < h)).
Proof.
  intros Hr Hne Hlen.
  destruct (reachable_inv _ _ _ Hr) as (_ & _ & Hs & Hreg).
  unfold FindNode.
  set (len := Z.of_nat (length (vnodes ns))) in *.
  set (f := λ i, vn ← index (vnodes ns) i; Some (hash vn >=? h)).
  destruct (Search_spec f len) as (r & -> & Hrn & Hlo & Hhi).
  { lia. }
  { intros k Hk. destruct (lookup_lt_is_Some_2 (vnodes ns) (Z.to_nat k)) as [vn Hvn]; [lia|].
    exists (hash vn >=? h). apply probe_lookup. eauto with lia. }
  { intros k k' Hk Hk' (_ & vn & Hvn & Hb)%probe_lookup.
    destruct (lookup_lt_is_Some_2 (vnodes ns) (Z.to_nat k')) as [vn' Hvn']; [lia|].
    apply probe_lookup. split; [lia|]. exists vn'. split; [done|].
    pose proof (ring_sorted_lookup _ (Z.to_nat k) (Z.to_nat k') _ _ Hs Hvn Hvn' ltac:(lia)).
    symmetry in Hb. apply Z.geb_le in Hb. symmetry. apply Z.geb_le. lia. }
  simpl. case_decide as Hwrap.
  - (* every hash is below [h]: wrap around *)
    destruct (vnodes ns) as [|vn0 vs] eqn:Hvs; [done|].
    destruct (Hreg vn0) as (node & Hnode & Hid); [rewrite Hvs; left|].
    exists 0%nat, vn0, node. unfold index. simpl. rewrite Hnode. simpl.
    split_and!; try done. right. split; [done|].
    intros v (j & Hj)%list_elem_of_lookup.
    pose proof (lookup_lt_Some _ _ _ Hj) as Hjlen.
    destruct (proj1 (probe_lookup (vn0 :: vs) h (Z.of_nat j) false)) as (_ & v' & Hv' & Hb).
    { apply Hlo. subst len r. lia. }
    rewrite Nat2Z.id in Hv'. simplify_eq. symmetry in Hb.
    rewrite Z.geb_leb in Hb. apply Z.leb_gt in Hb. done.
  - destruct (lookup_lt_is_Some_2 (vnodes ns) (Z.to_nat r)) as [vn Hvn]; [lia|].
    destruct (Hreg vn) as (node & Hnode & Hid); [by eapply list_elem_of_lookup_2|].
    exists (Z.to_nat r), vn, node. unfold index. rewrite decide_True by lia.
    rewrite Hvn. simpl. rewrite Hnode. simpl.
    split_and!; try done. left. split.
    + destruct (proj1 (probe_lookup (vnodes ns) h r true)) as (_ & v' & Hv' & Hb).
      { apply Hhi. lia. }
      simplify_eq. symmetry in Hb. by apply Z.geb_le in Hb.
    + intros j v Hj Hv.
      destruct (proj1 (probe_lookup (vnodes ns) h (Z.of_nat j) false)) as (_ & v' & Hv' & Hb).
      { apply Hlo. lia. }
      rewrite Nat2Z.id in Hv'. simplify_eq. symmetry in Hb.
      rewrite Z.geb_leb in Hb. by apply Z.leb_gt in Hb.
Qed.

(** C4.  The sequence of virtual nodes is in ascending order of hash
    after every [AddNode], stays so through every [RemoveNode], and so
    is in order in every ring built from the empty one. *)
Theorem ring_always_sorted :
  (∀ url weight ns, ring_sorted (vnodes (AddNode url weight ns))) ∧
  (∀ id ns, ring_sorted (vnodes ns) → ring_sorted (vnodes (RemoveNode id ns))) ∧
  (∀ npw n ns, reachable npw n ns → ring_sorted (vnodes ns)).
Proof.
  split_and!.
  - apply AddNode_sorted.
  - apply RemoveNode_sorted.
  - intros npw n ns Hr. by destruct (reachable_inv _ _ _ Hr) as (_ & _ & Hs & _).
Qed.

(** C5.  The call of [AddNode] that follows [n] earlier ones (and any
    number of [RemoveNode]s) gives the node the id [n], which no node
    and no virtual node of the ring bears; it registers the node under
    that id and adds, for [i] from 0 up to [weight * nodesPerWeight],
    one virtual node of that id with the FNV-1a hash of ["{id}-{i}"],
    leaving the other virtual nodes in place; with weight 2 and 3 nodes
    per weight that makes 6. *)
Theorem AddNode_next_id_and_vnodes npw n ns url weight :
  reachable npw n ns → Z.of_nat n ≤ int_max →
  let id := Z.of_nat n in
  let ns' := AddNode url weight ns in
  latestNodeId ns = id ∧
  nodes ns !! id = None ∧
  (∀ vn, vn ∈ vnodes ns → nodeId vn < id) ∧
  (∀ k, is_Some (nodes ns !! k) → 0 ≤ k < id) ∧
  latestNodeId ns' = to_int (id + 1) ∧
  nodes ns' !! id = Some (MakeNode id url) ∧
  filter (λ vn, nodeId vn = id) (vnodes ns') ≡ₚ vnodes_of id (to_int (weight * npw)) ∧
  filter (λ vn, nodeId vn ≠ id) (vnodes ns') ≡ₚ vnodes ns ∧
  (0 ≤ weight * npw ≤ int_max →
     Z.of_nat (length (filter (λ vn, nodeId vn = id) (vnodes ns'))) = weight * npw) ∧
  (weight = 2 → npw = 3 →
     length (filter (λ vn, nodeId vn = id) (vnodes ns')) = 6%nat).
Proof.
  intros Hr Hn id ns'.
  destruct (reachable_inv _ _ _ Hr) as (Hnpw & Hid & _ & _).
  rewrite to_int_small in Hid by (unfold int_min, int_max in *; lia).
  destruct (reachable_ids_below _ _ _ Hr) as [Hnodes Hvnodes]; [lia|].
  assert (nodes ns !! id = None) as Hfresh.
  { destruct (nodes ns !! id) eqn:Hk; [|done].
    destruct (Hnodes id); [by eexists|]. subst id. lia. }
  assert (filter (λ vn, nodeId vn = id) (vnodes ns')
          ≡ₚ vnodes_of id (to_int (weight * npw))) as Hnew.
  { subst ns'. rewrite AddNode_vnodes, Hid, Hnpw, filter_app.
    rewrite filter_none; [|intros vn ?%Hvnodes; subst id; lia].
    rewrite filter_all; [done|]. intros vn. apply vnodes_of_nodeId. }
  split_and!; try done.
  - intros vn ?%Hvnodes. subst id. lia.
  - subst ns'. unfold AddNode. simpl. by rewrite Hid.
  - subst ns'. unfold AddNode. simpl. by rewrite Hid, lookup_insert_eq.
  - subst ns'. rewrite AddNode_vnodes, Hid, Hnpw, filter_app.
    rewrite filter_all; [|intros vn ?%Hvnodes; subst id; lia].
    rewrite filter_none; [by rewrite app_nil_r|].
    intros vn ?%vnodes_of_nodeId. tauto.
  - intros Hw. rewrite Hnew, vnodes_of_length.
    rewrite to_int_small by (unfold int_min, int_max in *; lia). lia.
  - intros -> ->. by rewrite Hnew, vnodes_of_length.
Qed.

(** C6.  [RemoveNode(id)] removes every virtual node of node [id] and
    the record of the node, keeps the other virtual nodes in the order
    they had and the other records as they were; hence in every ring
    built from the empty one, every virtual node refers to a registered
    node. *)
Theorem RemoveNode_purges_node id ns :
  (∀ vn, vn ∈ vnodes (RemoveNode id ns) → nodeId vn ≠ id) ∧
  nodes (RemoveNode id ns) !! id = None ∧
  (∀ vn, vn ∈ vnodes ns → nodeId vn ≠ id → vn ∈ vnodes (RemoveNode id ns)) ∧
  vnodes (RemoveNode id ns) `sublist_of` vnodes ns ∧
  vnodes (RemoveNode id ns) = filter (λ vn, nodeId vn ≠ id) (vnodes ns) ∧
  (∀ k, k ≠ id → nodes (RemoveNode id ns) !! k = nodes ns !! k) ∧
  (∀ npw n ns0, reachable npw n ns0 → vnodes_registered ns0).
Proof.
  unfold RemoveNode. simpl. split_and!.
  - intros vn [Hne _]%list_elem_of_filter. congruence.
  - apply lookup_delete_eq.
  - intros vn Hvn Hne. apply list_elem_of_filter. split; [congruence|done].
  - apply sublist_filter.
  - apply list_filter_iff. intros vn. split; congruence.
  - intros k Hk. by rewrite lookup_delete_ne.
  - intros npw n ns0 Hr. by destruct (reachable_inv _ _ _ Hr) as (_ & _ & _ & Hreg).
Qed.

(** ** More on lookup *)

(** Where the binary search of [FindNode] ends on a sorted ring. *)
Lemma Search_probe vs h :
  ring_sorted vs → Z.of_nat (length vs) ≤ int_max →
  ∃ r : nat,
    Search (Z.of_nat (length vs)) (λ i, vn ← index vs i; Some (hash vn >=? h))
    = Some (Z.of_nat r) ∧
    (r ≤ length vs)%nat ∧
    (∀ (j : nat) v, (j < r)%nat → vs !! j = Some v → hash v < h) ∧
    (∀ (j : nat) v, (r ≤ j)%nat → vs !! j = Some v → h ≤ hash v).
Proof.
  intros Hs Hlen.
  set (f := λ i, vn ← index vs i; Some (hash vn >=? h)).
  destruct (Search_spec f (Z.of_nat (length vs))) as (r & Hr & Hrn & Hlo & Hhi).
  { lia. }
  { intros k Hk. destruct (lookup_lt_is_Some_2 vs (Z.to_nat k)) as [vn Hvn]; [lia|].
    exists (hash vn >=? h). apply probe_lookup. eauto with lia. }
  { intros k k' Hk Hk' (_ & vn & Hvn & Hb)%probe_lookup.
    destruct (lookup_lt_is_Some_2 vs (Z.to_nat k')) as [vn' Hvn']; [lia|].
    apply probe_lookup. split; [lia|]. exists vn'. split; [done|].
    pose proof (ring_sorted_lookup _ (Z.to_nat k) (Z.to_nat k') _ _ Hs Hvn Hvn' ltac:(lia)).
    symmetry in Hb. apply Z.geb_le in Hb. symmetry. apply Z.geb_le. lia. }
  exists (Z.to_nat r). rewrite Z2Nat.id by lia. split_and!; [done|lia| |].
  - intros j v Hj Hv.
    destruct (proj1 (probe_lookup vs h (Z.of_nat j) false)) as (_ & v' & Hv' & Hb).
    { apply Hlo. lia. }
    rewrite Nat2Z.id in Hv'. simplify_eq. symmetry in Hb.
    rewrite Z.geb_leb in Hb. by apply Z.leb_gt in Hb.
  - intros j v Hj Hv. pose proof (lookup_lt_Some _ _ _ Hv).
    destruct (proj1 (probe_lookup vs h (Z.of_nat j) true)) as (_ & v' & Hv' & Hb).
    { apply Hhi. lia. }
    rewrite Nat2Z.id in Hv'. simplify_eq. symmetry in Hb. by apply Z.geb_le in Hb.
Qed.

(** On a sorted ring the binary search of [FindNode] finds what going
    along the ring finds. *)
Lemma FindNode_along_ring h ns :
  ring_sorted (vnodes ns) → Z.of_nat (length (vnodes ns)) ≤ int_max →
  FindNode h ns
  = vn ← successor h (vnodes ns);
    Some (default (MkNode 0 "") (nodes ns !! nodeId vn)).
Proof.
  intros Hs Hlen. unfold FindNode, successor.
  destruct (Search_probe (vnodes ns) h Hs Hlen) as (r & -> & Hr & Hlo & Hhi).
  simpl. case_decide as Hwrap.
  - apply Nat2Z.inj in Hwrap. subst r.
    replace (list_find (λ vn, h ≤ hash vn) (vnodes ns)) with (@None (nat * VNode)).
    + unfold index. simpl. by rewrite head_lookup.
    + symmetry. apply list_find_None, Forall_forall.
      intros v (j & Hj)%list_elem_of_lookup.
      pose proof (lookup_lt_Some _ _ _ Hj). pose proof (Hlo j v ltac:(lia) Hj). lia.
  - destruct (lookup_lt_is_Some_2 (vnodes ns) r) as [vn Hvn]; [lia|].
    replace (list_find (λ vn, h ≤ hash vn) (vnodes ns)) with (Some (r, vn)).
    + unfold index. rewrite decide_True by lia. by rewrite Nat2Z.id, Hvn.
    + symmetry. apply list_find_Some. split_and!; [done|by apply (Hhi r)|].
      intros j v Hj Hjr. pose proof (Hlo j v Hjr Hj). lia.
Qed.

(** Whatever [FindNode] returns is the node of some virtual node. *)
Lemma FindNode_owner h ns node :
  vnodes_registered ns → FindNode h ns = Some node →
  ∃ vn, vn ∈ vnodes ns ∧ nodes ns !! nodeId vn = Some node ∧
        node.(node.id) = nodeId vn.
Proof.
  intros Hreg. unfold FindNode.
  destruct (Search _ _) as [idx|]; [|done]. simpl.
  set (i := if decide _ then _ else _). unfold index. case_decide; [|done].
  destruct (vnodes ns !! Z.to_nat i) as [vn|] eqn:Hvn; [|done]. simpl.
  intros [= <-]. exists vn.
  assert (vn ∈ vnodes ns) as Hin by (by eapply list_elem_of_lookup_2).
  destruct (Hreg vn Hin) as (node & -> & Hid). done.
Qed.

(** X13.  [FindNode] on a ring without virtual nodes runs into the
    index-out-of-range panic, be it a new ring, a ring whose nodes were
    all removed, or one whose nodes all have weight 0; and on the rings
    built by [AddNode] and [RemoveNode] that is the only way it fails. *)
Theorem FindNode_panics_iff_empty npw n ns h :
  reachable npw n ns → Z.of_nat (length (vnodes ns)) ≤ int_max →
  (FindNode h ns = None ↔ vnodes ns = []).
Proof.
  intros Hr Hlen.
  destruct (reachable_inv _ _ _ Hr) as (_ & _ & Hs & Hreg).
  rewrite FindNode_along_ring by done. unfold successor. split.
  - destruct (list_find _ _) as [[i vn]|]; [done|].
    by destruct (vnodes ns).
  - intros ->. done.
Qed.

(** X14.  A node that was removed is never returned again: after
    [RemoveNode(id)], no lookup gives a node of that id (its slot in the
    ring falls to the nodes that remain). *)
Theorem removed_node_never_found npw n ns id h node :
  reachable npw n ns →
  FindNode h (RemoveNode id ns) = Some node → node.(node.id) ≠ id.
Proof.
  intros Hr Hfind.
  destruct (reachable_inv _ _ _ (reach_remove npw n ns id Hr)) as (_ & _ & _ & Hreg).
  destruct (FindNode_owner _ _ _ Hreg Hfind) as (vn & Hvn & _ & ->).
  unfold RemoveNode in Hvn. simpl in Hvn.
  apply list_elem_of_filter in Hvn as [Hne _]. congruence.
Qed.

Lemma find_first_cons (Q : VNode → Prop) `{∀ vn, Decision (Q vn)} x vs :
  list_find Q (x :: vs)
  = if decide (Q x) then Some (0%nat, x)
    else fmap (M:=option) (prod_map S Datatypes.id) (list_find Q vs).
Proof. reflexivity. Qed.

Lemma find_first_filter (P Q : VNode → Prop)
    `{∀ vn, Decision (P vn)} `{∀ vn, Decision (Q vn)} vs i v :
  list_find Q vs = Some (i, v) → P v →
  ∃ j, list_find Q (filter P vs) = Some (j, v).
Proof.
  intros Hfind HP. revert i Hfind.
  induction vs as [|x vs IH]; intros i Hfind; [done|].
  rewrite find_first_cons in Hfind. rewrite filter_cons.
  case_decide as Hx.
  - simplify_eq. rewrite decide_True by done. exists 0%nat.
    by rewrite find_first_cons, decide_True.
  - destruct (list_find Q vs) as [[i' v']|] eqn:Hvs; simplify_eq/=.
    destruct (IH i' eq_refl) as [j Hj].
    case_decide; [|by exists j]. exists (S j).
    by rewrite find_first_cons, decide_False, Hj.
Qed.

Lemma successor_filter (P : VNode → Prop) `{∀ vn, Decision (P vn)} h vs v :
  successor h vs = Some v → P v → successor h (filter P vs) = Some v.
Proof.
  unfold successor. intros Hv HP.
  destruct (list_find (λ vn, h ≤ hash vn) vs) as [[i v']|] eqn:Hfind.
  - simplify_eq.
    destruct (find_first_filter P (λ vn, h ≤ hash vn) vs i v Hfind HP) as [j ->].
    done.
  - apply list_find_None in Hfind.
    assert (list_find (λ vn, h ≤ hash vn) (filter P vs) = None) as ->.
    { apply list_find_None, Forall_forall. intros u [_ Hu]%list_elem_of_filter.
      rewrite Forall_forall in Hfind. by apply Hfind. }
    destruct vs as [|x vs]; simplify_eq/=. by rewrite filter_cons, decide_True.
Qed.

(** X15.  Removing a node moves no key between the nodes that stay: a
    hash that fell to a node other than the removed one falls to the
    same node afterwards. *)
Theorem RemoveNode_keeps_other_owners npw n ns id h node :
  reachable npw n ns → Z.of_nat (length (vnodes ns)) ≤ int_max →
  FindNode h ns = Some node → node.(node.id) ≠ id →
  FindNode h (RemoveNode id ns) = Some node.
Proof.
  intros Hr Hlen Hfind Hne.
  destruct (reachable_inv _ _ _ Hr) as (_ & _ & Hs & Hreg).
  rewrite FindNode_along_ring in Hfind by done.
  destruct (successor h (vnodes ns)) as [v|] eqn:Hv; [|done]. simpl in Hfind.
  assert (v ∈ vnodes ns) as Hin.
  { unfold successor in Hv.
    destruct (list_find _ _) as [[i v']|] eqn:Hf.
    - simplify_eq. apply list_find_Some in Hf as (Hi & _).
      by eapply list_elem_of_lookup_2.
    - destruct (vnodes ns); simplify_eq/=. left. }
  destruct (Hreg v Hin) as (node' & Hnode' & Hid).
  rewrite Hnode' in Hfind. simpl in Hfind. simplify_eq.
  rewrite FindNode_along_ring.
  - unfold RemoveNode. simpl.
    rewrite (successor_filter _ h (vnodes ns) v Hv) by congruence. simpl.
    rewrite lookup_delete_ne by congruence. by rewrite Hnode'.
  - by apply RemoveNode_sorted.
  - unfold RemoveNode. simpl. pose proof (length_filter (λ vn, id ≠ nodeId vn) (vnodes ns)).
    lia.
Qed.

(** ** Membership changes and the owners of keys *)

Lemma successor_elem_of h vs v : successor h vs = Some v → v ∈ vs.
Proof.
  unfold successor. destruct (list_find _ _) as [[i v']|] eqn:Hf.
  - intros [= ->]. apply list_find_Some in Hf as (Hi & _).
    by eapply list_elem_of_lookup_2.
  - destruct vs; intros [= ->]. left.
Qed.

Lemma successor_owns h vs v :
  ring_sorted vs → successor h vs = Some v → owns h vs v.
Proof.
  intros Hs Hv. split; [by eapply successor_elem_of|].
  unfold successor in Hv.
  destruct (list_find _ _) as [[i v']|] eqn:Hf.
  - simplify_eq. apply list_find_Some in Hf as (Hi & Hh & Hbefore).
    left. split; [done|]. intros u (j & Hj)%list_elem_of_lookup Hu.
    destruct (decide (j < i)%nat) as [Hlt|Hge]; [by destruct (Hbefore j u Hj Hlt)|].
    eapply (ring_sorted_lookup vs i j); eauto with lia.
  - apply list_find_None in Hf. rewrite Forall_forall in Hf.
    right. split; [intros u Hu; specialize (Hf u Hu); lia|].
    intros u (j & Hj)%list_elem_of_lookup.
    rewrite head_lookup in Hv. eapply (ring_sorted_lookup vs 0 j); eauto with lia.
Qed.

Lemma distinct_hashes vs u v :
  NoDup (hash <$> vs) → u ∈ vs → v ∈ vs → hash u = hash v → u = v.
Proof.
  induction vs as [|x vs IH]; [by intros _ ?%elem_of_nil|].
  rewrite fmap_cons, NoDup_cons, !elem_of_cons.
  intros [Hx Hnd] [->|Hu] [->|Hv] Heq; auto.
  - destruct Hx. rewrite Heq. by apply list_elem_of_fmap_2.
  - destruct Hx. rewrite <-Heq. by apply list_elem_of_fmap_2.
Qed.

Lemma owns_unique h vs u v :
  NoDup (hash <$> vs) → owns h vs u → owns h vs v → u = v.
Proof.
  intros Hnd [Hu Hcu] [Hv Hcv]. apply (distinct_hashes vs); [done..|].
  destruct Hcu as [[Hhu Hminu]|[Hallu Hminu]], Hcv as [[Hhv Hminv]|[Hallv Hminv]].
  - pose proof (Hminu v Hv Hhv). pose proof (Hminv u Hu Hhu). lia.
  - specialize (Hallv u Hu). lia.
  - specialize (Hallu v Hv). lia.
  - pose proof (Hminu v Hv). pose proof (Hminv u Hu). lia.
Qed.

Lemma owns_among h vs vs' v :
  owns h vs' v → (∀ u, u ∈ vs → u ∈ vs') → v ∈ vs → owns h vs v.
Proof.
  intros [_ Hc] Hsub Hv. split; [done|].
  destruct Hc as [[Hh Hmin]|[Hall Hmin]]; [left|right]; naive_solver.
Qed.

(** X16.  Adding a node takes keys from the other nodes only for the new
    node: when the virtual nodes of the new ring have distinct hashes, a
    hash falls after [AddNode] to the node it fell to before, or to the
    node just added. *)
Theorem AddNode_moves_keys_only_to_new_node npw n ns url weight h node node' :
  reachable npw n ns → Z.of_nat n ≤ int_max →
  Z.of_nat (length (vnodes (AddNode url weight ns))) ≤ int_max →
  NoDup (hash <$> vnodes (AddNode url weight ns)) →
  FindNode h ns = Some node →
  FindNode h (AddNode url weight ns) = Some node' →
  node' = node ∨ node' = MakeNode (Z.of_nat n) url.
Proof.
  intros Hr Hn Hlen' Hnd' Hfind Hfind'.
  destruct (reachable_inv _ _ _ Hr) as (_ & Hid & Hs & Hreg).
  rewrite to_int_small in Hid by (unfold int_min, int_max in *; lia).
  destruct (reachable_ids_below _ _ _ Hr) as [_ Hbelow]; [lia|].
  pose proof (AddNode_vnodes url weight ns) as Hperm.
  pose proof (AddNode_sorted url weight ns) as Hs'.
  assert (Z.of_nat (length (vnodes ns)) ≤ int_max) as Hlen.
  { rewrite Hperm, length_app in Hlen'. lia. }
  rewrite FindNode_along_ring in Hfind, Hfind' by done.
  destruct (successor h (vnodes ns)) as [v|] eqn:Hv; [|done].
  destruct (successor h (vnodes (AddNode url weight ns))) as [v'|] eqn:Hv'; [|done].
  simpl in Hfind, Hfind'. rewrite Hid in Hfind'.
  destruct (decide (nodeId v' = Z.of_nat n)) as [Hnew|Hold].
  { right. rewrite Hnew, lookup_insert_eq in Hfind'. by simplify_eq/=. }
  left. rewrite lookup_insert_ne in Hfind' by done.
  assert (v' ∈ vnodes ns) as Hin'.
  { apply successor_elem_of in Hv'. rewrite Hperm in Hv'.
    apply elem_of_app in Hv' as [?|Hnew]; [done|].
    apply vnodes_of_nodeId in Hnew. congruence. }
  assert (v = v') as ->; [|congruence].
  apply (owns_unique h (vnodes ns)).
  - rewrite Hperm, fmap_app in Hnd'. by apply NoDup_app in Hnd' as (? & _).
  - by apply successor_owns.
  - apply (owns_among h (vnodes ns) (vnodes (AddNode url weight ns))).
    + by apply successor_owns.
    + intros u Hu. rewrite Hperm. apply elem_of_app. by left.
    + done.
Qed.

(** X17.  [RemoveNode] of an id that is not registered changes nothing,
    so that removing a node twice is removing it once. *)
Theorem RemoveNode_unregistered npw n ns id :
  reachable npw n ns →
  (nodes ns !! id = None → RemoveNode id ns = ns) ∧
  RemoveNode id (RemoveNode id ns) = RemoveNode id ns.
Proof.
  intros Hr.
  assert (∀ ns0, vnodes_registered ns0 → nodes ns0 !! id = None →
            RemoveNode id ns0 = ns0) as Hnoop.
  { intros [npw0 ndm vs latest] Hreg Hnone. unfold RemoveNode. simpl in *.
    f_equal; [by apply delete_id|].
    apply filter_all. intros vn Hvn ->.
    destruct (Hreg vn Hvn) as (node & Hnode & _). simpl in Hnode. congruence. }
  destruct (reachable_inv _ _ _ Hr) as (_ & _ & _ & Hreg).
  split; [by apply Hnoop|].
  apply Hnoop; [by apply RemoveNode_registered|].
  unfold RemoveNode. simpl. apply lookup_delete_eq.
Qed.

(** X18.  [AddNode] followed by [RemoveNode] of the node just added gives
    back the registry and the virtual nodes of the ring, in the very
    same order when their hashes are distinct; only the counter of ids
    has moved on, so the id is not handed out again. *)
Theorem AddNode_then_RemoveNode npw n ns url weight :
  reachable npw n ns → Z.of_nat n ≤ int_max →
  let ns' := RemoveNode (Z.of_nat n) (AddNode url weight ns) in
  nodes ns' = nodes ns ∧
  vnodes ns' ≡ₚ vnodes ns ∧
  (NoDup (hash <$> vnodes ns) → vnodes ns' = vnodes ns) ∧
  latestNodeId ns' = to_int (Z.of_nat n + 1).
Proof.
  intros Hr Hn ns'.
  destruct (reachable_inv _ _ _ Hr) as (_ & Hid & Hs & Hreg).
  rewrite to_int_small in Hid by (unfold int_min, int_max in *; lia).
  destruct (reachable_ids_below _ _ _ Hr) as [Hnodes Hbelow]; [lia|].
  assert (vnodes ns' ≡ₚ vnodes ns) as Hperm.
  { subst ns'. unfold RemoveNode. cbn [vnodes].
    rewrite AddNode_vnodes, filter_app, Hid.
    rewrite filter_all; [|intros vn ?%Hbelow; lia].
    rewrite filter_none; [by rewrite app_nil_r|].
    intros vn ->%vnodes_of_nodeId. tauto. }
  split_and!; [|done| |].
  - subst ns'. unfold RemoveNode, AddNode. simpl. rewrite Hid, delete_insert_eq.
    apply delete_id. destruct (nodes ns !! Z.of_nat n) eqn:Hk; [|done].
    destruct (Hnodes (Z.of_nat n)); [by eexists|]. lia.
  - intros Hnd. apply (StronglySorted_unique_strong (λ a b, hash a ≤ hash b)); [| |done|done].
    + intros u v Hu Hv ??. apply (distinct_hashes (vnodes ns)); [done| |done|lia].
      by rewrite <-Hperm.
    + subst ns'. apply RemoveNode_sorted, AddNode_sorted.
  - subst ns'. unfold RemoveNode, AddNode. simpl. by rewrite Hid.
Qed.

(** X19.  [AddNode] with a weight that makes no virtual node (the
    product with [nodesPerWeight] is zero or negative) registers the
    node and leaves the virtual nodes as they were: the node owns no
    part of the ring, and no lookup ever returns it. *)
Theorem AddNode_without_vnodes npw n ns url weight :
  reachable npw n ns → Z.of_nat n ≤ int_max → int_min ≤ weight * npw ≤ 0 →
  let ns' := AddNode url weight ns in
  nodes ns' !! Z.of_nat n = Some (MakeNode (Z.of_nat n) url) ∧
  vnodes ns' ≡ₚ vnodes ns ∧
  ∀ h node, FindNode h ns' = Some node → node.(node.id) ≠ Z.of_nat n.
Proof.
  intros Hr Hn Hw ns'.
  destruct (reachable_inv _ _ _ Hr) as (Hnpw & Hid & _ & _).
  rewrite to_int_small in Hid by (unfold int_min, int_max in *; lia).
  destruct (reachable_ids_below _ _ _ Hr) as [_ Hbelow]; [lia|].
  assert (vnodes ns' ≡ₚ vnodes ns) as Hperm.
  { subst ns'. rewrite AddNode_vnodes, Hnpw.
    rewrite to_int_small by (unfold int_min, int_max in *; lia).
    unfold vnodes_of, seqZ. replace (Z.to_nat (weight * npw)) with 0%nat by lia.
    simpl. by rewrite app_nil_r. }
  split_and!; [|done|].
  - subst ns'. unfold AddNode. simpl. by rewrite Hid, lookup_insert_eq.
  - intros h node Hfind.
    destruct (reachable_inv _ _ _ (reach_add npw n ns url weight Hr)) as (_ & _ & _ & Hreg').
    destruct (FindNode_owner _ _ _ Hreg' Hfind) as (vn & Hvn & _ & ->).
    fold ns' in Hvn. rewrite Hperm in Hvn. specialize (Hbelow vn Hvn). lia.
Qed.

(** X21.  A virtual node answers for its own place on the ring: when
    the hashes of the ring are distinct, looking up the hash of a
    virtual node returns the node it belongs to. *)
Theorem vnode_owns_its_hash npw n ns vn :
  reachable npw n ns → Z.of_nat (length (vnodes ns)) ≤ int_max →
  NoDup (hash <$> vnodes ns) → vn ∈ vnodes ns →
  ∃ node, FindNode (hash vn) ns = Some node ∧
          nodes ns !! nodeId vn = Some node ∧ node.(node.id) = nodeId vn.
Proof.
  intros Hr Hlen Hnd Hvn.
  destruct (reachable_inv _ _ _ Hr) as (_ & _ & Hs & Hreg).
  destruct (Hreg vn Hvn) as (node & Hnode & Hid).
  exists node. split_and!; [|done..].
  rewrite FindNode_along_ring by done.
  destruct (successor (hash vn) (vnodes ns)) as [v|] eqn:Hv.
  - assert (v = vn) as ->.
    { apply (owns_unique (hash vn) (vnodes ns)); [done|by apply successor_owns|].
      split; [done|]. left. split; [lia|]. intros u _ Hu. lia. }
    simpl. by rewrite Hnode.
  - unfold successor in Hv. destruct (list_find _ _) as [[? ?]|]; [done|].
    destruct (vnodes ns); [by apply elem_of_nil in Hvn|done].
Qed.

End ring.

(** ** The theorems at work on the small ring [ring_ab] *)

Lemma ring_ab_reachable : @reachable insertion_sorter 3 2 ring_ab.
Proof. unfold ring_ab. repeat constructor. Defined.

Lemma FindNode_successor_witness :
  ∃ (idx : nat) vn node,
    FindNode 4000000000 ring_ab = Some node ∧
    vnodes ring_ab !! idx = Some vn ∧
    nodes ring_ab !! nodeId vn = Some node ∧ node.(node.id) = nodeId vn ∧
    ((4000000000 ≤ hash vn ∧
      ∀ (j : nat) v, (j < idx)%nat → vnodes ring_ab !! j = Some v → hash v < 4000000000) ∨
     (idx = 0%nat ∧ ∀ v, v ∈ vnodes ring_ab → hash v < 4000000000)).
Proof.
  apply (@FindNode_successor insertion_sorter insertion_sorter_spec 3 2 ring_ab 4000000000).
  - exact ring_ab_reachable.
  - vm_compute. discriminate.
  - vm_compute. discriminate.
Defined.

Lemma ring_always_sorted_witness :
  ring_sorted (vnodes ring_ab) ∧
  ring_sorted (vnodes (RemoveNode 0 ring_ab)).
Proof.
  destruct (@ring_always_sorted insertion_sorter insertion_sorter_spec)
    as (_ & Hremove & Hreach).
  split.
  - exact (Hreach 3 2%nat ring_ab ring_ab_reachable).
  - apply Hremove. exact (Hreach 3 2%nat ring_ab ring_ab_reachable).
Defined.

Lemma AddNode_next_id_and_vnodes_witness :
  let ns := RemoveNode 0 ring_ab in
  let ns' := @AddNode insertion_sorter "c" 2 ns in
  latestNodeId ns = 2 ∧
  nodes ns' !! 2 = Some (MakeNode 2 "c") ∧
  filter (λ vn, nodeId vn = 2) (vnodes ns') ≡ₚ vnodes_of 2 6 ∧
  length (filter (λ vn, nodeId vn = 2) (vnodes ns')) = 6%nat.
Proof.
  intros ns ns'.
  destruct (@AddNode_next_id_and_vnodes insertion_sorter insertion_sorter_spec
              3 2 ns "c" 2)
    as (Hid & _ & _ & _ & _ & Hnode & Hnew & _ & _ & Hsix).
  - apply reach_remove. exact ring_ab_reachable.
  - vm_compute. discriminate.
  - split_and!; [exact Hid|exact Hnode|exact Hnew|by apply Hsix].
Defined.

Lemma RemoveNode_purges_node_witness :
  (∀ vn, vn ∈ vnodes (RemoveNode 0 ring_ab) → nodeId vn ≠ 0) ∧
  nodes (RemoveNode 0 ring_ab) !! 0 = None ∧
  vnodes_registered (RemoveNode 0 ring_ab).
Proof.
  destruct (@RemoveNode_purges_node insertion_sorter insertion_sorter_spec 0 ring_ab)
    as (Hgone & Hrec & _ & _ & _ & _ & Hreg).
  split_and!; [exact Hgone|exact Hrec|].
  apply (Hreg 3 2%nat). apply reach_remove. exact ring_ab_reachable.
Defined.

Lemma FindNode_panics_iff_empty_witness :
  FindNode 5 (@AddNode insertion_sorter "z" 0 (MakeNodeService 3)) = None.
Proof.
  apply (@FindNode_panics_iff_empty insertion_sorter insertion_sorter_spec 3 1
           (@AddNode insertion_sorter "z" 0 (MakeNodeService 3)) 5).
  - repeat constructor.
  - vm_compute. discriminate.
  - vm_compute. reflexivity.
Defined.

Lemma removed_node_never_found_witness :
  FindNode 0 (RemoveNode 0 ring_ab) = Some (MkNode 1 "b") ∧
  node.id (MkNode 1 "b") ≠ 0.
Proof.
  assert (FindNode 0 (RemoveNode 0 ring_ab) = Some (MkNode 1 "b")) as Hfind
    by (vm_compute; reflexivity).
  split; [exact Hfind|].
  exact (@removed_node_never_found insertion_sorter insertion_sorter_spec
           3 2 ring_ab 0 0 (MkNode 1 "b") ring_ab_reachable Hfind).
Defined.

Lemma RemoveNode_keeps_other_owners_witness :
  FindNode 3000000000 (RemoveNode 0 ring_ab) = Some (MkNode 1 "b").
Proof.
  apply (@RemoveNode_keeps_other_owners insertion_sorter insertion_sorter_spec
           3 2 ring_ab 0 3000000000 (MkNode 1 "b")).
  - exact ring_ab_reachable.
  - vm_compute. discriminate.
  - vm_compute. reflexivity.
  - simpl. discriminate.
Defined.

Lemma AddNode_moves_keys_only_to_new_node_witness :
  FindNode 0 (@AddNode insertion_sorter "c" 1 ring_ab) = Some (MkNode 0 "a") ∨
  FindNode 0 (@AddNode insertion_sorter "c" 1 ring_ab) = Some (MakeNode 2 "c").
Proof.
  destruct (FindNode 0 (@AddNode insertion_sorter "c" 1 ring_ab)) as [node'|] eqn:Hfind.
  - destruct (@AddNode_moves_keys_only_to_new_node insertion_sorter insertion_sorter_spec
                3 2 ring_ab "c" 1 0 (MkNode 0 "a") node') as [->| ->].
    + exact ring_ab_reachable.
    + vm_compute. discriminate.
    + vm_compute. discriminate.
    + refine (bool_decide_unpack _ _). vm_compute. exact I.
    + vm_compute. reflexivity.
    + exact Hfind.
    + by left.
    + by right.
  - vm_compute in Hfind. discriminate.
Defined.

Lemma RemoveNode_unregistered_witness :
  RemoveNode 7 ring_ab = ring_ab ∧
  RemoveNode 0 (RemoveNode 0 ring_ab) = RemoveNode 0 ring_ab.
Proof.
  split.
  - destruct (@RemoveNode_unregistered insertion_sorter insertion_sorter_spec
                3 2 ring_ab 7 ring_ab_reachable) as [Hnoop _].
    apply Hnoop. vm_compute. reflexivity.
  - destruct (@RemoveNode_unregistered insertion_sorter insertion_sorter_spec
                3 2 ring_ab 0 ring_ab_reachable) as [_ Htwice].
    exact Htwice.
Defined.

Lemma AddNode_then_RemoveNode_witness :
  nodes (RemoveNode 2 (@AddNode insertion_sorter "c" 2 ring_ab)) = nodes ring_ab ∧
  vnodes (RemoveNode 2 (@AddNode insertion_sorter "c" 2 ring_ab)) = vnodes ring_ab ∧
  latestNodeId (RemoveNode 2 (@AddNode insertion_sorter "c" 2 ring_ab)) = 3.
Proof.
  destruct (@AddNode_then_RemoveNode insertion_sorter insertion_sorter_spec
              3 2 ring_ab "c" 2) as (Hnodes & _ & Hvnodes & Hlatest).
  - exact ring_ab_reachable.
  - vm_compute. discriminate.
  - split_and!; [exact Hnodes| |exact Hlatest].
    apply Hvnodes. refine (bool_decide_unpack _ _). vm_compute. exact I.
Defined.

Lemma AddNode_without_vnodes_witness :
  nodes (@AddNode insertion_sorter "z" 0 ring_ab) !! 2 = Some (MakeNode 2 "z") ∧
  vnodes (@AddNode insertion_sorter "z" 0 ring_ab) ≡ₚ vnodes ring_ab.
Proof.
  destruct (@AddNode_without_vnodes insertion_sorter insertion_sorter_spec
              3 2 ring_ab "z" 0) as (Hnode & Hperm & _).
  - exact ring_ab_reachable.
  - vm_compute. discriminate.
  - vm_compute. split; discriminate.
  - split; [exact Hnode|exact Hperm].
Defined.

Lemma vnode_owns_its_hash_witness :
  ∃ node, FindNode 3829387862 ring_ab = Some node ∧
          nodes ring_ab !! 1 = Some node ∧ node.(node.id) = 1.
Proof.
  apply (@vnode_owns_its_hash insertion_sorter insertion_sorter_spec
           3 2 ring_ab (MkVNode 1 3829387862)).
  - exact ring_ab_reachable.
  - vm_compute. discriminate.
  - refine (bool_decide_unpack _ _). vm_compute. exact I.
  - apply list_elem_of_lookup. exists 7%nat. vm_compute. reflexivity.
Defined.

Example ring_ab_vnodes :
  vnodes ring_ab
  = [MkVNode 0 1401090518; MkVNode 0 1417868137; MkVNode 0 1434645756;
     MkVNode 0 1451423375; MkVNode 0 1468200994; MkVNode 0 1484978613;
     MkVNode 1 3812610243; MkVNode 1 3829387862; MkVNode 1 3846165481].
Proof. vm_compute. reflexivity. Qed.

Example ring_ab_lookups :
  FindNode 0 ring_ab = Some (MkNode 0 "a") ∧
  FindNode 1484978614 ring_ab = Some (MkNode 1 "b") ∧
  FindNode 3846165481 ring_ab = Some (MkNode 1 "b") ∧
  FindNode 3846165482 ring_ab = Some (MkNode 0 "a") ∧
  FindNode 0 (MakeNodeService 3) = None.
Proof. vm_compute. done. Qed.

End node_properties.

(** * The HTTP front: properties *)

Section nodecmd_properties.
Import kvstore nodecmd.

Implicit Types (kv : KeyValueService) (r : Request) (w : Written).

Lemma Get_as_map k kv :
  isActive kv = true → ctxDone kv = false →
  Get k kv = (map_answer (store kv) (CallGet k),
              MkService (input kv ++ [MkCommand GET k None]) true false (store kv)).
Proof. intros Ha Hd. apply (call_as_map (CallGet k) kv Ha Hd). Qed.

Lemma call_closed c kv :
  isActive kv = false → call c kv = (Returned None closed_error, kv).
Proof.
  intros Ha. destruct c; simpl; unfold Set_, Get, Delete, CheckActive; by rewrite Ha.
Qed.

(** Whatever the state of the service, an error comes with a message
    and without a value. *)
Lemma call_error c kv v e :
  (call c kv).1 = Returned v (Some e) → e ≠ "" ∧ v = None.
Proof.
  destruct (isActive kv) eqn:Ha; [|rewrite call_closed by done; by intros [= <- <-]].
  destruct (ctxDone kv) eqn:Hd.
  { destruct c; simpl; unfold Set_, Get, Delete, CheckActive, roundtrip;
      by rewrite Ha, Hd. }
  rewrite call_as_map by done. simpl.
  destruct c as [k v0|k|k]; simpl; [done| |done].
  destruct (store kv !! k); [done|]. by intros [= <- <-].
Qed.

(** X8.  A request without a key, with a body that does not decode, or
    with a method other than GET, POST, PUT and DELETE is turned down
    with 400, 400 and 405 before the store is asked anything: the
    service is left exactly as it was.  The key is checked first, so a
    request without a key gets 400 whatever its method. *)
Theorem rejected_requests r kv :
  (QueryKey r = "" →
   handleKV r kv
   = (Some (written 400 (MkResponse false None "missing 'key' query parameter")), kv)) ∧
  (QueryKey r ≠ "" → Method r = "POST" ∨ Method r = "PUT" → Body r = None →
   handleKV r kv
   = (Some (written 400 (MkResponse false None "invalid JSON body")), kv)) ∧
  (QueryKey r ≠ "" → Method r ∉ ["GET"; "POST"; "PUT"; "DELETE"] →
   handleKV r kv
   = (Some (written 405 (MkResponse false None "method not allowed")), kv)).
Proof.
  unfold handleKV. split_and!.
  - intros ->. done.
  - intros Hk Hm Hb. rewrite decide_False by done.
    rewrite decide_False by (intros Hg; destruct Hm as [Hm|Hm]; by rewrite Hg in Hm).
    rewrite decide_True by done. unfold handleSet. by rewrite Hb.
  - intros Hk Hm. rewrite decide_False by done.
    rewrite !not_elem_of_cons in Hm. destruct Hm as (? & ? & ? & ? & _).
    rewrite !decide_False; [done|done|tauto|done].
Qed.

Lemma rejected_requests_witness :
  handleKV (MkRequest "PATCH" "" None) GetKeyValueService
  = (Some (written 400 (MkResponse false None "missing 'key' query parameter")),
     GetKeyValueService) ∧
  handleKV (MkRequest "PUT" "k" None) GetKeyValueService
  = (Some (written 400 (MkResponse false None "invalid JSON body")),
     GetKeyValueService) ∧
  handleKV (MkRequest "PATCH" "k" (Some "v")) GetKeyValueService
  = (Some (written 405 (MkResponse false None "method not allowed")),
     GetKeyValueService).
Proof.
  split_and!.
  - apply (rejected_requests (MkRequest "PATCH" "" None) GetKeyValueService).
    reflexivity.
  - apply (rejected_requests (MkRequest "PUT" "k" None) GetKeyValueService).
    + discriminate.
    + by right.
    + reflexivity.
  - apply (rejected_requests (MkRequest "PATCH" "k" (Some "v")) GetKeyValueService).
    + discriminate.
    + simpl. rewrite !not_elem_of_cons.
      split_and!; try discriminate. apply not_elem_of_nil.
Defined.

(** The reply of a handler that has made its call. *)
Lemma reply_coherent (code : Z) c kv w kv' :
  code = 404 ∨ code = 500 →
  match call c kv with
  | (Blocked, kv) => (None, kv)
  | (Returned val (Some err), kv) => (Some (written code (MkResponse false None err)), kv)
  | (Returned val None, kv) => (Some (written 200 (MkResponse true val "")), kv)
  end = (Some w, kv') →
  contentType w = "application/json" ∧
  (status w = 200 ↔ Success (body w) = true) ∧
  (Success (body w) = true ↔ Error (body w) = "") ∧
  (Success (body w) = false → Value (body w) = None) ∧
  status w ∈ [200; 400; 404; 405; 500].
Proof.
  intros Hcode. pose proof (call_error c kv) as Herr.
  destruct (call c kv) as [[v [e|]|] kv1]; simpl in *; intros [= <- <-]; simpl.
  - destruct (Herr v e eq_refl) as [He _].
    split_and!; [done|split; [lia|done]|split; done|done|].
    rewrite !elem_of_cons. lia.
  - split_and!; try done. rewrite !elem_of_cons. lia.
Qed.

(** X9.  Whatever the request and whatever the state of the service, a
    reply is JSON, its status is one of 200, 400, 404, 405 and 500, it
    is 200 exactly when the document says success, a success carries no
    error message, and a failure carries a message and no value. *)
Theorem reply_is_coherent r kv w kv' :
  handleKV r kv = (Some w, kv') →
  contentType w = "application/json" ∧
  (status w = 200 ↔ Success (body w) = true) ∧
  (Success (body w) = true ↔ Error (body w) = "") ∧
  (Success (body w) = false → Value (body w) = None) ∧
  status w ∈ [200; 400; 404; 405; 500].
Proof.
  unfold handleKV. repeat case_decide.
  - intros [= <- <-]. simpl. split_and!; try done. rewrite !elem_of_cons.
    unfold StatusBadRequest, StatusMethodNotAllowed. lia.
  - apply (reply_coherent 404 (CallGet (QueryKey r))). by left.
  - unfold handleSet. destruct (Body r) as [v|].
    + apply (reply_coherent 500 (CallSet (QueryKey r) v)). by right.
    + intros [= <- <-]. simpl. split_and!; try done. rewrite !elem_of_cons.
    unfold StatusBadRequest, StatusMethodNotAllowed. lia.
  - apply (reply_coherent 500 (CallDelete (QueryKey r))). by right.
  - intros [= <- <-]. simpl. split_and!; try done. rewrite !elem_of_cons.
    unfold StatusBadRequest, StatusMethodNotAllowed. lia.
Qed.

Lemma reply_is_coherent_witness :
  (handleKV (MkRequest "GET" "k" None) GetKeyValueService).1
  = Some (written 404 (MkResponse false None "key k does not exist in the store")) ∧
  (404 = 200 ↔ false = true) ∧
  (false = true ↔ "key k does not exist in the store" = "").
Proof.
  destruct (reply_is_coherent (MkRequest "GET" "k" None) GetKeyValueService
              (written 404 (MkResponse false None "key k does not exist in the store"))
              (MkService [MkCommand GET "k" None] true false ∅))
    as (_ & Hst & Herr & _).
  - reflexivity.
  - split_and!; [reflexivity|exact Hst|exact Herr].
Defined.

Lemma live_not_done kv : reachable kv → isActive kv = true → ctxDone kv = false.
Proof.
  intros Hr Ha. apply reachable_active in Hr. rewrite Ha in Hr.
  by destruct (ctxDone kv).
Qed.

(** X10.  On an active service a request with a key is always answered,
    and never with 500: GET gives 200 with the value of the key, or 404
    with the key-not-found message when the key is absent, and leaves
    the map as it is; POST and PUT with a body that decodes give 200
    with the value sent, which the key then holds; DELETE gives 200 with
    the value the key held, none when it was absent, and the key is
    gone. *)
Theorem live_requests r kv :
  reachable kv → isActive kv = true → QueryKey r ≠ "" →
  let k := QueryKey r in
  (Method r = "GET" →
   (handleKV r kv).1
   = Some (match store kv !! k with
           | Some v => written 200 (MkResponse true (Some v) "")
           | None => written 404 (MkResponse false None
                                    ("key " +:+ k +:+ " does not exist in the store"))
           end) ∧
   store (handleKV r kv).2 = store kv) ∧
  (Method r = "POST" ∨ Method r = "PUT" → ∀ v, Body r = Some v →
   (handleKV r kv).1 = Some (written 200 (MkResponse true (Some v) "")) ∧
   store (handleKV r kv).2 = <[k := v]> (store kv)) ∧
  (Method r = "DELETE" →
   (handleKV r kv).1 = Some (written 200 (MkResponse true (store kv !! k) "")) ∧
   store (handleKV r kv).2 = delete k (store kv)).
Proof.
  intros Hr Ha Hk k. pose proof (live_not_done kv Hr Ha) as Hd.
  unfold handleKV. rewrite decide_False by done. fold k. split_and!.
  - intros ->. rewrite decide_True by done. unfold handleGet.
    rewrite Get_as_map by done. simpl. by destruct (store kv !! k).
  - intros Hm v Hb.
    rewrite decide_False by (intros Hg; destruct Hm as [Hm|Hm]; by rewrite Hg in Hm).
    rewrite decide_True by done. unfold handleSet. rewrite Hb.
    by rewrite Set_live.
  - intros ->. rewrite decide_False by done.
    rewrite decide_False by (by intros [|]).
    rewrite decide_True by done. unfold handleDelete.
    by rewrite Delete_live.
Qed.

Lemma live_requests_witness :
  (handleKV (MkRequest "GET" "k" None) GetKeyValueService).1
  = Some (written 404 (MkResponse false None "key k does not exist in the store")) ∧
  (handleKV (MkRequest "POST" "k" (Some "v")) GetKeyValueService).1
  = Some (written 200 (MkResponse true (Some "v") "")) ∧
  (handleKV (MkRequest "DELETE" "k" None) GetKeyValueService).1
  = Some (written 200 (MkResponse true None "")).
Proof.
  split_and!.
  - destruct (live_requests (MkRequest "GET" "k" None) GetKeyValueService)
      as (Hget & _); [apply reach_init|reflexivity|discriminate|].
    by destruct Hget as [-> _].
  - destruct (live_requests (MkRequest "POST" "k" (Some "v")) GetKeyValueService)
      as (_ & Hset & _); [apply reach_init|reflexivity|discriminate|].
    by destruct (Hset (or_introl eq_refl) "v" eq_refl) as [-> _].
  - destruct (live_requests (MkRequest "DELETE" "k" None) GetKeyValueService)
      as (_ & _ & Hdel); [apply reach_init|reflexivity|discriminate|].
    by destruct Hdel as [-> _].
Defined.

(** X11.  Once the service is closed, a request with a key is answered
    with the service-closed message and changes nothing: with 404 for a
    GET, and with 500 for a DELETE and for a POST or PUT whose body
    decodes. *)
Theorem closed_requests r kv :
  isActive kv = false → QueryKey r ≠ "" →
  (Method r = "GET" →
   handleKV r kv
   = (Some (written 404 (MkResponse false None "KeyValueService has been closed")), kv)) ∧
  (Method r = "POST" ∨ Method r = "PUT" → is_Some (Body r) →
   handleKV r kv
   = (Some (written 500 (MkResponse false None "KeyValueService has been closed")), kv)) ∧
  (Method r = "DELETE" →
   handleKV r kv
   = (Some (written 500 (MkResponse false None "KeyValueService has been closed")), kv)).
Proof.
  intros Ha Hk. unfold handleKV. rewrite decide_False by done. split_and!.
  - intros ->. rewrite decide_True by done. unfold handleGet.
    pose proof (call_closed (CallGet (QueryKey r)) kv Ha) as Hc. simpl in Hc. by rewrite Hc.
  - intros Hm [v Hb].
    rewrite decide_False by (intros Hg; destruct Hm as [Hm|Hm]; by rewrite Hg in Hm).
    rewrite decide_True by done. unfold handleSet. rewrite Hb.
    pose proof (call_closed (CallSet (QueryKey r) v) kv Ha) as Hc. simpl in Hc. by rewrite Hc.
  - intros ->. rewrite decide_False by done.
    rewrite decide_False by (by intros [|]).
    rewrite decide_True by done. unfold handleDelete.
    pose proof (call_closed (CallDelete (QueryKey r)) kv Ha) as Hc. simpl in Hc. by rewrite Hc.
Qed.

Lemma closed_requests_witness :
  (handleKV (MkRequest "GET" "k" None) (Close GetKeyValueService)).1
  = Some (written 404 (MkResponse false None "KeyValueService has been closed")) ∧
  (handleKV (MkRequest "PUT" "k" (Some "v")) (Close GetKeyValueService)).1
  = Some (written 500 (MkResponse false None "KeyValueService has been closed")) ∧
  (handleKV (MkRequest "DELETE" "k" None) (Close GetKeyValueService)).1
  = Some (written 500 (MkResponse false None "KeyValueService has been closed")).
Proof.
  split_and!.
  - destruct (closed_requests (MkRequest "GET" "k" None) (Close GetKeyValueService))
      as (Hget & _); [reflexivity|discriminate|].
    by rewrite Hget.
  - destruct (closed_requests (MkRequest "PUT" "k" (Some "v")) (Close GetKeyValueService))
      as (_ & Hset & _); [reflexivity|discriminate|].
    rewrite Hset; [done|by right|by eexists].
  - destruct (closed_requests (MkRequest "DELETE" "k" None) (Close GetKeyValueService))
      as (_ & _ & Hdel); [reflexivity|discriminate|].
    by rewrite Hdel.
Defined.

(** X12.  Over HTTP on an active service: what a POST or PUT stores
    under a key, a GET of the key returns with 200; a DELETE of the key
    returns it once more, after which a GET gives 404. *)
Theorem http_round_trip kv (m k v : string) (b1 b2 b3 : option string) :
  reachable kv → isActive kv = true → k ≠ "" → m = "POST" ∨ m = "PUT" →
  let kv1 := (handleKV (MkRequest m k (Some v)) kv).2 in
  let kv2 := (handleKV (MkRequest "GET" k b1) kv1).2 in
  let kv3 := (handleKV (MkRequest "DELETE" k b2) kv2).2 in
  (handleKV (MkRequest "GET" k b1) kv1).1
  = Some (written 200 (MkResponse true (Some v) "")) ∧
  (handleKV (MkRequest "DELETE" k b2) kv2).1
  = Some (written 200 (MkResponse true (Some v) "")) ∧
  (handleKV (MkRequest "GET" k b3) kv3).1
  = Some (written 404 (MkResponse false None
                         ("key " +:+ k +:+ " does not exist in the store"))).
Proof.
  intros Hr Ha Hk Hm kv1 kv2 kv3. pose proof (live_not_done kv Hr Ha) as Hd.
  assert (∀ (r : Request) s, QueryKey r ≠ "" → Method r = "GET" →
            handleKV r s = handleGet (QueryKey r) s) as Hget.
  { intros r s Hq Hg. unfold handleKV. by rewrite decide_False, decide_True. }
  assert (kv1 = MkService (input kv ++ [MkCommand PUT k (Some v)]) true false
                   (<[k := v]> (store kv))) as Hkv1.
  { subst kv1. unfold handleKV. cbn [QueryKey Method]. rewrite decide_False by done.
    rewrite decide_False by (intros Hg; destruct Hm as [Hm|Hm]; by rewrite Hg in Hm).
    rewrite decide_True by done. unfold handleSet. cbn [Body]. by rewrite Set_live. }
  assert (handleKV (MkRequest "GET" k b1) kv1
          = (Some (written 200 (MkResponse true (Some v) "")),
             MkService (input kv1 ++ [MkCommand GET k None]) true false (store kv1)))
    as Hstep2.
  { rewrite Hget by done. unfold handleGet. cbn [QueryKey].
    rewrite Get_as_map by (by rewrite Hkv1). cbn [map_answer].
    replace (store kv1 !! k) with (Some v); [done|].
    rewrite Hkv1. simpl. by rewrite lookup_insert_eq. }
  assert (handleKV (MkRequest "DELETE" k b2) kv2
          = (Some (written 200 (MkResponse true (Some v) "")),
             MkService (input kv2 ++ [MkCommand DELETE k None]) true false
               (delete k (store kv2)))) as Hstep3.
  { subst kv2. rewrite Hstep2. unfold handleKV. cbn [QueryKey Method snd].
    rewrite decide_False by done. rewrite decide_False by done.
    rewrite decide_False by (by intros [|]). rewrite decide_True by done.
    unfold handleDelete. rewrite Delete_live by done. cbn [store input].
    replace (store kv1 !! k) with (Some v); [done|].
    rewrite Hkv1. simpl. by rewrite lookup_insert_eq. }
  split_and!; [by rewrite Hstep2|by rewrite Hstep3|].
  subst kv3. rewrite Hstep3. rewrite Hget by done. unfold handleGet.
  cbn [QueryKey snd]. rewrite Get_as_map by done. cbn [map_answer store fst].
  by rewrite lookup_delete_eq.
Qed.

Lemma http_round_trip_witness :
  let kv1 := (handleKV (MkRequest "PUT" "k" (Some "v")) GetKeyValueService).2 in
  let kv2 := (handleKV (MkRequest "GET" "k" None) kv1).2 in
  let kv3 := (handleKV (MkRequest "DELETE" "k" None) kv2).2 in
  (handleKV (MkRequest "GET" "k" None) kv1).1
  = Some (written 200 (MkResponse true (Some "v") "")) ∧
  (handleKV (MkRequest "DELETE" "k" None) kv2).1
  = Some (written 200 (MkResponse true (Some "v") "")) ∧
  (handleKV (MkRequest "GET" "k" None) kv3).1
  = Some (written 404 (MkResponse false None "key k does not exist in the store")).
Proof.
  apply (http_round_trip GetKeyValueService "PUT" "k" "v" None None None).
  - apply reach_init.
  - reflexivity.
  - discriminate.
  - by right.
Defined.

End nodecmd_properties.
